(** * range-v3: bounded advance and the zip view

    A shallow embedding of
      - [include/range/v3/detail/advance_bounded.hpp] (struct [advance_bounded_]),
      - [include/range/v3/view/zip.hpp] (the [detail] function objects,
        [zip_range_view] and its [basic_iterator]),
    followed by the properties of the two components.

    Conventions.
      - A C++ iterator type [Iter] is a Rocq type [I] with the operations of
        class [Cursor]; member functions that mutate [*this] or an [Iter &]
        argument return the new value.
      - Integers are [Z].  The count's type [Diff] is the class [DiffType],
        which tells what the conversions of the random-access overloads do
        to a value; iterator differences are values of the difference type,
        and overflow inside that type (undefined in C++) is not modelled.
      - [std::tuple<Ts...>] of N component iterators is a [list] of length N.
      - [RANGES_ASSERT] is modelled by the [outcome] monad. *)

From Stdlib Require Import ZArith List Bool Lia Ascii.
Import ListNotations.
Local Open Scope Z_scope.

(* ================================================================== *)
(** * Part I: definitions                                              *)
(* ================================================================== *)

(** ** Iterator category tags *)

(** The tags of [<iterator>] that the two headers dispatch on.  Each tag
    derives from the previous one ([forward_iterator_tag] from
    [input_iterator_tag], and so on); [std::output_iterator_tag] is not a
    category of a readable range and is left out. *)
Inductive iterator_category : Type :=
  | input_iterator_tag
  | forward_iterator_tag
  | bidirectional_iterator_tag
  | random_access_iterator_tag.

(** The direct base class of a tag. *)
Definition base_class (c : iterator_category) : option iterator_category :=
  match c with
  | input_iterator_tag => None
  | forward_iterator_tag => Some input_iterator_tag
  | bidirectional_iterator_tag => Some forward_iterator_tag
  | random_access_iterator_tag => Some bidirectional_iterator_tag
  end.

Definition category_eqb (a b : iterator_category) : bool :=
  match a, b with
  | input_iterator_tag, input_iterator_tag
  | forward_iterator_tag, forward_iterator_tag
  | bidirectional_iterator_tag, bidirectional_iterator_tag
  | random_access_iterator_tag, random_access_iterator_tag => true
  | _, _ => false
  end.

(** [c] followed by its base classes, nearest first.  The hierarchy is
    four deep, so three steps up reach the root from any tag. *)
Fixpoint bases_upto (k : nat) (c : iterator_category) : list iterator_category :=
  c :: match k with
       | O => []
       | S k' => match base_class c with
                 | None => []
                 | Some b => bases_upto k' b
                 end
       end.

Definition self_and_bases (c : iterator_category) : list iterator_category :=
  bases_upto 3 c.

(** Derived-to-base conversion: an object of tag [d] converts to tag [b]. *)
Definition converts_to (d b : iterator_category) : bool :=
  existsb (category_eqb b) (self_and_bases d).

(** The type of [true ? declval<T>() : declval<U>()] for two tag types:
    the operand that the other one converts to. *)
Definition conditional_type (t u : iterator_category) : option iterator_category :=
  if converts_to t u then Some u
  else if converts_to u t then Some t
  else None.

(** Overload resolution for a function overloaded on the tag types
    [overloads], called with an object of type [tag]: the identity
    conversion wins, then the conversion to the nearest base class. *)
Definition nearest_overload (overloads : list iterator_category) (tag : iterator_category)
  : option iterator_category :=
  find (fun c => existsb (category_eqb c) overloads) (self_and_bases tag).

(** [std::common_type<Ts...>::type]: no member [type] for an empty pack,
    [T] itself for one type, the conditional type for two, and a left
    fold for more. *)
Fixpoint common_type_from (acc : iterator_category) (ts : list iterator_category)
  : option iterator_category :=
  match ts with
  | [] => Some acc
  | t :: ts' =>
      match conditional_type acc t with
      | Some c => common_type_from c ts'
      | None => None
      end
  end.

Definition common_type (ts : list iterator_category) : option iterator_category :=
  match ts with
  | [] => None
  | t :: ts' => common_type_from t ts'
  end.

(** The spec's order of the tiers (single-pass lowest), used to state
    what [common_type] computes. *)
Definition tier (c : iterator_category) : nat :=
  match c with
  | input_iterator_tag => 0
  | forward_iterator_tag => 1
  | bidirectional_iterator_tag => 2
  | random_access_iterator_tag => 3
  end.

Definition tier_min (a b : iterator_category) : iterator_category :=
  if (tier a <=? tier b)%nat then a else b.

(** The minimum tier of a non-empty collection, written after the spec. *)
Definition minimum_tier (t : iterator_category) (ts : list iterator_category)
  : iterator_category :=
  fold_right tier_min t ts.

(** ** Assertions *)

(** The result of code that may run into a failed [RANGES_ASSERT]. *)
Inductive outcome (A : Type) : Type :=
  | Ok (a : A)
  | AssertionFailed.
Arguments Ok {A} a.
Arguments AssertionFailed {A}.

Definition bind {A B : Type} (m : outcome A) (k : A -> outcome B) : outcome B :=
  match m with
  | Ok a => k a
  | AssertionFailed => AssertionFailed
  end.

Notation "m ;; k" := (bind m (fun _ => k))
  (at level 61, right associativity).

(** Modelled from the spec: the macro [RANGES_ASSERT] is defined in
    [range_fwd.hpp], which is not part of the sources at hand.  The spec
    describes it as a fail-fast assertion of debug builds that halts the
    program; that build is the one modelled. *)
Definition RANGES_ASSERT (cond : bool) : outcome unit :=
  if cond then Ok tt else AssertionFailed.

(** ** Iterators *)

(** The operations the two headers use on an iterator type. Which of them
    a concrete type really offers is told by its category tag; the code
    selected for a tag uses no operation above it. *)
Class Cursor (I : Type) : Type := {
  cur_eqb : I -> I -> bool;   (* t == u *)
  cur_inc : I -> I;           (* ++t *)
  cur_dec : I -> I;           (* --t *)
  cur_add : I -> Z -> I;      (* t += n *)
  cur_sub : I -> I -> Z       (* t - u *)
}.

(** [*t] with reference type [V]. *)
Class Dereferenceable (I V : Type) : Type :=
  cur_deref : I -> V.

(** [ranges::begin] and [ranges::end] of a range type [R]. *)
Class Range (R I : Type) : Type := {
  ranges_begin : R -> I;
  ranges_end : R -> I
}.

(** The iterator requirements that relate the operations to each other,
    for positions of one sequence:  equality is distance zero, [-] is
    antisymmetric and follows [+=], and [++]/[--] are [+= 1]/[+= -1]. *)
Class CursorLaws (I : Type) `{Cursor I} : Prop := {
  eqb_sub : forall a b : I, cur_eqb a b = (cur_sub a b =? 0);
  sub_anti : forall a b : I, cur_sub a b = - cur_sub b a;
  sub_add : forall (a b : I) (n : Z), cur_sub (cur_add a n) b = cur_sub a b + n;
  add_0 : forall a : I, cur_add a 0 = a;
  add_add : forall (a : I) (n m : Z), cur_add (cur_add a n) m = cur_add a (n + m);
  inc_add : forall a : I, cur_inc a = cur_add a 1;
  dec_add : forall a : I, cur_dec a = cur_add a (-1)
}.

(** *** Two iterator types *)

(** A counting iterator: the position is the integer itself
    (a pointer, or an index into an unbounded sequence). *)
#[export] Instance Z_cursor : Cursor Z := {|
  cur_eqb := Z.eqb;
  cur_inc := fun t => t + 1;
  cur_dec := fun t => t - 1;
  cur_add := fun t n => t + n;
  cur_sub := fun t u => t - u
|}.

(** An iterator into a vector-like container: the elements and an index.
    All movement is on the index; dereferencing outside of the elements
    (undefined in C++) gives [None]. *)
Record vec_iter (A : Type) : Type := mk_vec_iter {
  vi_data : list A;
  vi_pos : Z
}.
Arguments mk_vec_iter {A} _ _.
Arguments vi_data {A} _.
Arguments vi_pos {A} _.

#[export] Instance vec_cursor {A : Type} : Cursor (vec_iter A) := {|
  cur_eqb := fun t u => vi_pos t =? vi_pos u;
  cur_inc := fun t => mk_vec_iter (vi_data t) (vi_pos t + 1);
  cur_dec := fun t => mk_vec_iter (vi_data t) (vi_pos t - 1);
  cur_add := fun t n => mk_vec_iter (vi_data t) (vi_pos t + n);
  cur_sub := fun t u => vi_pos t - vi_pos u
|}.

#[export] Instance vec_deref {A : Type} : Dereferenceable (vec_iter A) (option A) :=
  fun t => if vi_pos t <? 0 then None else nth_error (vi_data t) (Z.to_nat (vi_pos t)).

#[export] Instance vec_range {A : Type} : Range (list A) (vec_iter A) := {|
  ranges_begin := fun l => mk_vec_iter l 0;
  ranges_end := fun l => mk_vec_iter l (Z.of_nat (length l))
|}.

(** ** advance_bounded.hpp *)

(** The template parameter [Diff] of the count.  The count [n] and the
    difference [room] of two iterators are integers of two types, [Diff]
    and the iterator's difference type; the random-access overloads
    compare them and subtract one from the other, which C++ does in their
    common type, and store the result back in [n]:
      - [diff_common x] is the value of an operand [x] after the usual
        arithmetic conversions to that common type;
      - [diff_narrow x] is the value of a result [x] stored in a [Diff].
    Iterator differences themselves ([end - it], [-(it - begin)]) are
    values of the difference type and are not converted. *)
Class DiffType : Type := {
  diff_common : Z -> Z;
  diff_narrow : Z -> Z
}.

(** A signed [Diff] of [w] bits that is no wider than the difference
    type: the common type is the difference type and holds both operands
    as they are; storing into [Diff] wraps to [w] bits. *)
Definition signed_diff (w : Z) : DiffType := {|
  diff_common := fun x => x;
  diff_narrow := fun x => (x + 2 ^ (w - 1)) mod 2 ^ w - 2 ^ (w - 1)
|}.

(** An unsigned [Diff] of [w] bits that is at least as wide as the
    difference type: the common type is [Diff] itself, so operands and
    results are taken modulo [2 ^ w]. *)
Definition unsigned_diff (w : Z) : DiffType := {|
  diff_common := fun x => x mod 2 ^ w;
  diff_narrow := fun x => x mod 2 ^ w
|}.

Section AdvanceBounded.
Context {I : Type} `{Cursor I} {D : DiffType}.

(** [fwd(it, n, end, std::input_iterator_tag)]:
    [while(n > 0 && it != end) { ++it; --n; } return n;]
    Every turn of the loop decrements a positive [n], so [Z.to_nat n]
    turns are enough (see [fwd_input_exits]). *)
Fixpoint fwd_input_loop (turns : nat) (it : I) (n : Z) (end_ : I) : I * Z :=
  match turns with
  | O => (it, n)
  | S turns' =>
      if (0 <? n) && negb (cur_eqb it end_)
      then fwd_input_loop turns' (cur_inc it) (n - 1) end_
      else (it, n)
  end.

Definition fwd_input (it : I) (n : Z) (end_ : I) : I * Z :=
  fwd_input_loop (Z.to_nat n) it n end_.

(** [fwd(it, n, end, std::random_access_iterator_tag)] *)
Definition fwd_random_access (it : I) (n : Z) (end_ : I) : I * Z :=
  let room := cur_sub end_ it in
  if diff_common room <? diff_common n
  then (end_, diff_narrow (n - room))
  else (cur_add it n, 0).

(** [back(it, n, begin, std::input_iterator_tag)]:
    [RANGES_ASSERT(false); return n;] *)
Definition back_input (it : I) (n : Z) (begin : I) : outcome (I * Z) :=
  RANGES_ASSERT false ;;
  Ok (it, n).

(** [back(it, n, begin, std::bidirectional_iterator_tag)]:
    [while(n < 0 && it != begin) { --it; ++n; } return n;] *)
Fixpoint back_bidirectional_loop (turns : nat) (it : I) (n : Z) (begin : I) : I * Z :=
  match turns with
  | O => (it, n)
  | S turns' =>
      if (n <? 0) && negb (cur_eqb it begin)
      then back_bidirectional_loop turns' (cur_dec it) (n + 1) begin
      else (it, n)
  end.

Definition back_bidirectional (it : I) (n : Z) (begin : I) : I * Z :=
  back_bidirectional_loop (Z.to_nat (- n)) it n begin.

(** [back(it, n, begin, std::random_access_iterator_tag)] *)
Definition back_random_access (it : I) (n : Z) (begin : I) : I * Z :=
  let room := - (cur_sub it begin) in
  if diff_common n <? diff_common room
  then (begin, diff_narrow (n - room))
  else (cur_add it n, 0).

(** Overload resolution on the tag argument [iterator_category_t<Iter>{}]:
    the overload for the tag itself if there is one, else the one for its
    nearest base class.  [fwd] has overloads for the input and the
    random-access tag. *)
Definition fwd (it : I) (n : Z) (end_ : I) (tag : iterator_category) : outcome (I * Z) :=
  match tag with
  | random_access_iterator_tag => Ok (fwd_random_access it n end_)
  | input_iterator_tag | forward_iterator_tag | bidirectional_iterator_tag =>
      Ok (fwd_input it n end_)
  end.

(** [back] has overloads for the input, the bidirectional and the
    random-access tag. *)
Definition back (it : I) (n : Z) (begin : I) (tag : iterator_category) : outcome (I * Z) :=
  match tag with
  | random_access_iterator_tag => Ok (back_random_access it n begin)
  | bidirectional_iterator_tag => Ok (back_bidirectional it n begin)
  | input_iterator_tag | forward_iterator_tag => back_input it n begin
  end.

(** [advance_bounded_::operator()(it, n, bound)], with the category of
    [Iter] as a parameter.  The result is the new value of [it] and the
    returned count. *)
Definition advance_bounded (tag : iterator_category) (it : I) (n : Z) (bound : I)
  : outcome (I * Z) :=
  if 0 <? n
  then fwd it n bound tag
  else back it n bound tag.

(** The reference the random-access overloads are compared with, written
    after the spec: step one position at a time, comparing against the
    bound each time, until the count is used up or the bound is met. *)
Fixpoint naive_advance_loop (turns : nat) (it : I) (n : Z) (bound : I) : I * Z :=
  match turns with
  | O => (it, n)
  | S turns' =>
      if (n =? 0) || cur_eqb it bound then (it, n)
      else if 0 <? n
           then naive_advance_loop turns' (cur_inc it) (n - 1) bound
           else naive_advance_loop turns' (cur_dec it) (n + 1) bound
  end.

Definition naive_advance (it : I) (n : Z) (bound : I) : I * Z :=
  naive_advance_loop (Z.abs_nat n) it n bound.

End AdvanceBounded.

(** A [Diff] in which the call at hand converts nothing: every operand
    and every result is held as it is.  It is the [Diff] of the statements
    that name no other one; [advance_bounded_exact] tells for which calls
    any other [Diff] agrees with it. *)
#[export] Instance exact_diff : DiffType := {|
  diff_common := fun x => x;
  diff_narrow := fun x => x
|}.

(** ** zip.hpp *)

(** *** Tuple algorithms *)

(** Modelled from the spec: [tuple_transform], [tuple_foldl] and
    [tuple_for_each] come from [utility/tuple_algorithm.hpp], which is not
    part of the sources at hand.  The spec describes their uses in the zip
    view as a component-wise map over the N slots, a fold of the N
    component-wise results, and an update of every slot.  The tuples given
    to the two-tuple transform have one C++ type, hence one length. *)
Definition tuple_transform {A B : Type} (t : list A) (f : A -> B) : list B :=
  map f t.

(** The transform of two tuples, slot by slot: [f(get<i>(t), get<i>(u))]. *)
Definition tuple_transform2 {A B : Type} (t u : list A) (f : A -> A -> B) : list B :=
  map (fun p => f (fst p) (snd p)) (combine t u).

(** The left fold [f(...f(f(seed, get<0>(t)), get<1>(t))...)]. *)
Definition tuple_foldl {A S : Type} (t : list A) (seed : S) (f : S -> A -> S) : S :=
  fold_left f t seed.

(** [f] applied to every slot in place. *)
Definition tuple_for_each {A : Type} (t : list A) (f : A -> A) : list A :=
  map f t.

(** [std::numeric_limits<difference_type>::min()] and [max()] of the
    zip iterator's difference type. *)
Class numeric_limits : Type := {
  limits_min : Z;
  limits_max : Z
}.

(** A 64-bit [std::ptrdiff_t]. *)
Definition ptrdiff_limits : numeric_limits :=
  {| limits_min := - 2 ^ 63; limits_max := 2 ^ 63 - 1 |}.

(** *** namespace detail *)

Module detail.
Section Detail.
Context {I : Type} `{Cursor I}.

(** [static_cast<bool>(t == u)] *)
Definition equal_to (t u : I) : bool := cur_eqb t u.

(** [*t] *)
Definition deref {V : Type} `{Dereferenceable I V} (t : I) : V := cur_deref t.

(** [--t] *)
Definition dec (t : I) : I := cur_dec t.

(** [++t] *)
Definition inc (t : I) : I := cur_inc t.

(** [std::advance(t, d)], for the random-access iterators the zip
    iterator's [advance] is instantiated with. *)
Definition advance (t : I) (d : Z) : I := cur_add t d.

(** [u - t] *)
Definition distance_to (t u : I) : Z := cur_sub u t.
End Detail.

(** [t < u ? t : u] *)
Definition min_ (t u : Z) : Z := if t <? u then t else u.

(** [t < u ? u : t] *)
Definition max_ (t u : Z) : Z := if t <? u then u else t.
End detail.

(** *** zip_range_view and its iterator *)

Section Zip.
Context {R I V : Type} `{Cursor I} `{Dereferenceable I V} `{Range R I}.
Context {lim : numeric_limits}.

(** [zip_range_view<InputRanges...>]: the tuple [rngs_]. *)
Record zip_range_view : Type := mk_zip_range_view {
  rngs_ : list R
}.

(** [basic_iterator<Const>]: the view pointed to and the tuple [its_]. *)
Record basic_iterator : Type := mk_basic_iterator {
  rng_ : zip_range_view;
  its_ : list I
}.

(** [basic_iterator(rng, begin_tag)] and [basic_iterator(rng, end_tag)],
    which are all that [zip_range_view::begin()] and [end()] do. *)
Definition zip_begin (rng : zip_range_view) : basic_iterator :=
  mk_basic_iterator rng (tuple_transform (rngs_ rng) ranges_begin).

Definition zip_end (rng : zip_range_view) : basic_iterator :=
  mk_basic_iterator rng (tuple_transform (rngs_ rng) ranges_end).

(** [reference dereference() const] *)
Definition dereference (this : basic_iterator) : list V :=
  tuple_transform (its_ this) detail.deref.

(** [bool equal(basic_iterator const &that) const] *)
Definition equal (this that : basic_iterator) : bool :=
  tuple_foldl
    (tuple_transform2 (its_ this) (its_ that) detail.equal_to)
    false (fun a b : bool => a || b).

(** [void increment()]; [*this != x] of the iterator facade is
    [!this->equal(x)]. *)
Definition increment (this : basic_iterator) : outcome basic_iterator :=
  RANGES_ASSERT (negb (equal this (zip_end (rng_ this)))) ;;
  Ok (mk_basic_iterator (rng_ this) (tuple_for_each (its_ this) detail.inc)).

(** [void decrement()] *)
Definition decrement (this : basic_iterator) : outcome basic_iterator :=
  RANGES_ASSERT (negb (equal this (zip_begin (rng_ this)))) ;;
  Ok (mk_basic_iterator (rng_ this) (tuple_for_each (its_ this) detail.dec)).

(** [void advance(difference_type n)] *)
Definition advance (this : basic_iterator) (n : Z) : basic_iterator :=
  mk_basic_iterator (rng_ this)
    (tuple_for_each (its_ this) (fun t => detail.advance t n)).

(** [difference_type distance_to(basic_iterator const &that) const].
    [std::get<0>] does not compile for an empty tuple: [None]. *)
Definition distance_to (this that : basic_iterator) : option Z :=
  match its_ this, its_ that with
  | this0 :: _, that0 :: _ =>
      if 0 <? cur_sub that0 this0
      then Some (tuple_foldl
                   (tuple_transform2 (its_ this) (its_ that) detail.distance_to)
                   limits_max detail.min_)
      else Some (tuple_foldl
                   (tuple_transform2 (its_ this) (its_ that) detail.distance_to)
                   limits_min detail.max_)
  | _, _ => None
  end.

(** [bool operator!() const]: [begin() == end()] *)
Definition zip_empty (rng : zip_range_view) : bool :=
  equal (zip_begin rng) (zip_end rng).

(** A caller's loop over the view,
    [for(auto it = rng.begin(); it != rng.end(); ++it) out.push_back( *it );]
    with a bound on the number of turns: the elements seen, and whether
    the loop left by its own test ([true]) within [turns]. [None] is a
    run that failed an assertion. *)
Fixpoint traverse_from (turns : nat) (it : basic_iterator)
  : option (list (list V) * bool) :=
  match turns with
  | O => Some ([], equal it (zip_end (rng_ it)))
  | S turns' =>
      if equal it (zip_end (rng_ it)) then Some ([], true)
      else match increment it with
           | AssertionFailed => None
           | Ok it' =>
               match traverse_from turns' it' with
               | None => None
               | Some (seen, done) => Some (dereference it :: seen, done)
               end
           end
  end.

Definition traverse (turns : nat) (rng : zip_range_view)
  : option (list (list V) * bool) :=
  traverse_from turns (zip_begin rng).

(** [n] times [++it], starting at [it]. *)
Fixpoint increment_n (n : nat) (it : basic_iterator) : outcome basic_iterator :=
  match n with
  | O => Ok it
  | S n' => bind (increment it) (increment_n n')
  end.

End Zip.

Arguments zip_range_view : clear implicits.
Arguments basic_iterator : clear implicits.
Arguments mk_zip_range_view {R} _.
Arguments mk_basic_iterator {R I} _ _.

(** The category of the zip iterator:
    [std::common_type<range_category_t<InputRanges>...>::type]. *)
Definition zip_iterator_category (cats : list iterator_category) : option iterator_category :=
  common_type cats.

(** *** The iterator facade *)

(** The primitives a facade composes operations from. *)
Inductive facade_operation : Type :=
  | op_equal | op_dereference | op_increment
  | op_decrement
  | op_advance | op_distance_to.

(** Modelled from the spec: [utility/iterator_facade.hpp] is not part of
    the sources at hand.  The spec has it synthesise equality, dereference
    and increment for every tier, decrement for bidirectional and above,
    and offset arithmetic and distance for random access only; the use of
    an operation above the declared tier is a compile-time error. *)
Definition required_category (op : facade_operation) : iterator_category :=
  match op with
  | op_equal | op_dereference | op_increment => input_iterator_tag
  | op_decrement => bidirectional_iterator_tag
  | op_advance | op_distance_to => random_access_iterator_tag
  end.

(** An operation compiles on an iterator of category [declared] when
    that category is, or derives from, the one the operation needs. *)
Definition facade_accepts (declared : iterator_category) (op : facade_operation) : bool :=
  converts_to declared (required_category op).

(** ** Vocabulary of the statements *)

(** The number of steps a count [n] allows when the bound is [d] steps
    away in the direction of [n]. *)
Definition clipped (n d : Z) : Z :=
  if 0 <? n then Z.min n d else Z.max n d.

(** The tag has an overload that moves in the direction of [n]: the
    input overload of [back] only asserts. *)
Definition moves_in_direction (tag : iterator_category) (n : Z) : bool :=
  match tag with
  | input_iterator_tag | forward_iterator_tag => 0 <? n
  | bidirectional_iterator_tag | random_access_iterator_tag => true
  end.

(** The bound is [d] steps from the position, in the direction of the
    count [n] and no more than [|n|] steps away. *)
Definition within_reach (n d : Z) : bool :=
  if 0 <? n then (0 <=? d) && (d <=? n) else (n <=? d) && (d <=? 0).

(** The bound is [d] steps from the position in the direction in which
    [advance_bounded] takes the count [n]. *)
Definition in_direction (n d : Z) : bool :=
  if 0 <? n then 0 <=? d else d <=? 0.

(** The conversions of a random-access call with count [n] and
    difference [room] change no value: both operands are held by the
    common type and [n - room] is held by [Diff]. *)
Definition conversions_exact (D : DiffType) (n room : Z) : Prop :=
  @diff_common D room = room
  /\ @diff_common D n = n
  /\ @diff_narrow D (n - room) = n - room.

Section Conservation.
Context {I : Type} `{Cursor I}.

(** Conservation of a bounded advance from [p] by [n] towards [bound]:
    the call returns, with new position [p'] and remainder [r], and
      - [p'] is [n - r] steps from [p];
      - [n - r] has the sign of [n] and is at most [n] in magnitude;
      - [p'] is not past [bound];
      - from [p == bound] with a count other than zero nothing moves
        and the whole count is returned. *)
Definition conserved (tag : iterator_category) (p : I) (n : Z) (bound : I) : Prop :=
  exists (p' : I) (r : Z),
    advance_bounded tag p n bound = Ok (p', r) /\
    p' = cur_add p (n - r) /\
    (0 < n -> 0 <= n - r <= n) /\
    (n < 0 -> n <= n - r <= 0) /\
    (n = 0 -> r = 0) /\
    (0 < n -> 0 <= cur_sub bound p') /\
    (n < 0 -> cur_sub bound p' <= 0) /\
    (cur_eqb p bound = true -> n <> 0 -> r = n /\ p' = p).
End Conservation.

Section ZipVocabulary.
Context {R I : Type} `{Cursor I}.

(** The rule the source does not use: equal when all pairs of
    corresponding component positions are equal. *)
Definition all_components_equal (this that : basic_iterator R I) : bool :=
  forallb (fun p => detail.equal_to (fst p) (snd p))
          (combine (its_ this) (its_ that)).

(** The signed distance of every pair of corresponding components. *)
Definition component_distances (this that : basic_iterator R I) : list Z :=
  map (fun p => cur_sub (snd p) (fst p)) (combine (its_ this) (its_ that)).

(** The fold of a non-empty list of distances with [f] alone. *)
Definition fold_with (f : Z -> Z -> Z) (ds : list Z) : option Z :=
  match ds with
  | [] => None
  | d :: ds' => Some (fold_left f ds' d)
  end.

(** The distance rule in the spec's words: with a positive distance
    between the first components the minimum of all component
    distances, else their maximum. *)
Definition distance_rule (this that : basic_iterator R I) : option Z :=
  match component_distances this that with
  | [] => None
  | d0 :: _ =>
      if 0 <? d0
      then fold_with Z.min (component_distances this that)
      else fold_with Z.max (component_distances this that)
  end.
End ZipVocabulary.

(** The view of the shortest-wins example: a zip of [a,b,c] and
    [x,y,z,w,v]. *)
Definition abc_xyzwv : zip_range_view (list ascii) :=
  mk_zip_range_view [ ["a"; "b"; "c"]%char ; ["x"; "y"; "z"; "w"; "v"]%char ].

(** ** Vocabulary of the further properties *)

(** The shortest and the longest length among the lists of a view
    (0 for no list). *)
Definition shortest_length {A : Type} (ls : list (list A)) : nat :=
  match ls with
  | [] => O
  | l :: ls' => fold_left Nat.min (map (@length A) ls') (length l)
  end.

Definition longest_length {A : Type} (ls : list (list A)) : nat :=
  match ls with
  | [] => O
  | l :: ls' => fold_left Nat.max (map (@length A) ls') (length l)
  end.

(** Row [i] of the lists side by side, and the rows up to the shortest
    list. *)
Definition zipped_row {A : Type} (ls : list (list A)) (i : nat) : list (option A) :=
  map (fun l => nth_error l i) ls.

Definition zipped_rows {A : Type} (ls : list (list A)) : list (list (option A)) :=
  map (zipped_row ls) (seq 0 (shortest_length ls)).

(** The zip position over the lists [ls] whose components all stand at
    index [z]. *)
Definition position_at {A : Type} (ls : list (list A)) (z : Z)
  : basic_iterator (list A) (vec_iter A) :=
  mk_basic_iterator (mk_zip_range_view ls) (map (fun l => mk_vec_iter l z) ls).

(* ================================================================== *)
(** * Part II: properties                                              *)
(* ================================================================== *)

(** ** The two iterator types meet the requirements *)

#[export] Instance Z_cursor_laws : CursorLaws Z.
Proof.
  constructor; simpl; intros; try lia.
Qed.

#[export] Instance vec_cursor_laws {A : Type} : CursorLaws (vec_iter A).
Proof.
  constructor; simpl.
  - intros a b. destruct (Z.eqb_spec (vi_pos a) (vi_pos b));
      destruct (Z.eqb_spec (vi_pos a - vi_pos b) 0); reflexivity || lia.
  - intros; lia.
  - intros; lia.
  - intros [l p]; simpl. f_equal; lia.
  - intros a n m. f_equal; lia.
  - reflexivity.
  - intros a. f_equal.
Qed.

(** ** The loops of advance_bounded leave by their own test *)

Section LoopsExit.
Context {I : Type} `{Cursor I}.

Lemma fwd_input_loop_exits (turns : nat) :
  forall (it : I) (n : Z) (end_ : I),
    (Z.to_nat n <= turns)%nat ->
    let r := fwd_input_loop turns it n end_ in
    (0 <? snd r) && negb (cur_eqb (fst r) end_) = false.
Proof.
  induction turns as [|turns IH]; intros it n end_ Hn; simpl.
  - assert (Hle : n <= 0) by lia.
    apply Z.ltb_ge in Hle. rewrite Hle. reflexivity.
  - destruct ((0 <? n) && negb (cur_eqb it end_)) eqn:Hc.
    + apply IH. apply andb_prop in Hc as [Hpos _].
      apply Z.ltb_lt in Hpos. lia.
    + simpl. exact Hc.
Qed.

(** [fwd_input] is the whole [while] loop: it stops only when the
    loop's condition is false. *)
Lemma fwd_input_exits (it : I) (n : Z) (end_ : I) :
  let r := fwd_input it n end_ in
  (0 <? snd r) && negb (cur_eqb (fst r) end_) = false.
Proof. apply fwd_input_loop_exits. apply Nat.le_refl. Qed.

Lemma back_bidirectional_loop_exits (turns : nat) :
  forall (it : I) (n : Z) (begin : I),
    (Z.to_nat (- n) <= turns)%nat ->
    let r := back_bidirectional_loop turns it n begin in
    (snd r <? 0) && negb (cur_eqb (fst r) begin) = false.
Proof.
  induction turns as [|turns IH]; intros it n begin Hn; simpl.
  - assert (Hle : 0 <= n) by lia.
    apply Z.ltb_ge in Hle. rewrite Hle. reflexivity.
  - destruct ((n <? 0) && negb (cur_eqb it begin)) eqn:Hc.
    + apply IH. apply andb_prop in Hc as [Hneg _].
      apply Z.ltb_lt in Hneg. lia.
    + simpl. exact Hc.
Qed.

Lemma back_bidirectional_exits (it : I) (n : Z) (begin : I) :
  let r := back_bidirectional it n begin in
  (snd r <? 0) && negb (cur_eqb (fst r) begin) = false.
Proof. apply back_bidirectional_loop_exits. apply Nat.le_refl. Qed.

(** More turns than [Z.to_nat n] change nothing. *)
Lemma fwd_input_loop_more_turns (turns : nat) :
  forall (it : I) (n : Z) (end_ : I),
    (Z.to_nat n <= turns)%nat ->
    fwd_input_loop turns it n end_ = fwd_input it n end_.
Proof.
  unfold fwd_input.
  induction turns as [|turns IH]; intros it n end_ Hn.
  - replace (Z.to_nat n) with O by lia. reflexivity.
  - simpl. destruct (0 <? n) eqn:Hpos; simpl.
    + apply Z.ltb_lt in Hpos.
      replace (Z.to_nat n) with (S (Z.to_nat (n - 1))) by lia.
      simpl. apply Z.ltb_lt in Hpos. rewrite Hpos. simpl.
      apply Z.ltb_lt in Hpos.
      destruct (cur_eqb it end_); simpl; [reflexivity|].
      apply IH. lia.
    + apply Z.ltb_ge in Hpos.
      replace (Z.to_nat n) with O by lia. reflexivity.
Qed.
End LoopsExit.

(** ** What advance_bounded computes *)

Section AdvanceBoundedFacts.
Context {I : Type} `{CursorLaws I}.

Lemma sub_diag (a : I) : cur_sub a a = 0.
Proof. pose proof (sub_anti a a). lia. Qed.

Lemma sub_add_l (a : I) (d : Z) : cur_sub (cur_add a d) a = d.
Proof. rewrite sub_add, sub_diag. lia. Qed.

Lemma sub_add_r (a : I) (d : Z) : cur_sub a (cur_add a d) = - d.
Proof. rewrite sub_anti, sub_add_l. reflexivity. Qed.

Lemma eqb_add_r (a : I) (d : Z) : cur_eqb a (cur_add a d) = (d =? 0).
Proof.
  rewrite eqb_sub, sub_add_r.
  destruct (Z.eqb_spec (- d) 0); destruct (Z.eqb_spec d 0); reflexivity || lia.
Qed.

Lemma eqb_true_sub (a b : I) : cur_eqb a b = true <-> cur_sub b a = 0.
Proof. rewrite eqb_sub, Z.eqb_eq, (sub_anti a b). lia. Qed.

Lemma fwd_input_loop_steps (turns : nat) :
  forall (it : I) (n d : Z),
    0 <= d -> 0 <= n -> (Z.to_nat n <= turns)%nat ->
    fwd_input_loop turns it n (cur_add it d)
    = (cur_add it (Z.min n d), n - Z.min n d).
Proof.
  induction turns as [|turns IH]; intros it n d Hd Hn Ht; simpl.
  - replace n with 0 by lia. rewrite Z.min_l by lia.
    rewrite add_0. reflexivity.
  - rewrite eqb_add_r.
    destruct (Z.ltb_spec 0 n) as [Hpos|Hle]; simpl.
    + destruct (Z.eqb_spec d 0) as [Hd0|Hd0]; simpl.
      * subst d. rewrite Z.min_r by lia. rewrite add_0.
        f_equal. lia.
      * rewrite inc_add.
        replace (cur_add it d) with (cur_add (cur_add it 1) (d - 1))
          by (rewrite add_add; f_equal; lia).
        rewrite IH by lia. rewrite add_add.
        f_equal; [f_equal|]; lia.
    + replace n with 0 by lia. rewrite Z.min_l by lia.
      rewrite add_0. reflexivity.
Qed.

Lemma back_bidirectional_loop_steps (turns : nat) :
  forall (it : I) (n d : Z),
    d <= 0 -> n <= 0 -> (Z.to_nat (- n) <= turns)%nat ->
    back_bidirectional_loop turns it n (cur_add it d)
    = (cur_add it (Z.max n d), n - Z.max n d).
Proof.
  induction turns as [|turns IH]; intros it n d Hd Hn Ht; simpl.
  - replace n with 0 by lia. rewrite Z.max_l by lia.
    rewrite add_0. reflexivity.
  - rewrite eqb_add_r.
    destruct (Z.ltb_spec n 0) as [Hneg|Hge]; simpl.
    + destruct (Z.eqb_spec d 0) as [Hd0|Hd0]; simpl.
      * subst d. rewrite Z.max_r by lia. rewrite add_0.
        f_equal. lia.
      * rewrite dec_add.
        replace (cur_add it d) with (cur_add (cur_add it (-1)) (d + 1))
          by (rewrite add_add; f_equal; lia).
        rewrite IH by lia. rewrite add_add.
        f_equal; [f_equal|]; lia.
    + replace n with 0 by lia. rewrite Z.max_l by lia.
      rewrite add_0. reflexivity.
Qed.

Lemma naive_advance_loop_steps (turns : nat) :
  forall (it : I) (n d : Z),
    (0 < n -> 0 <= d) -> (n < 0 -> d <= 0) ->
    (Z.abs_nat n <= turns)%nat ->
    let k := if n =? 0 then 0 else clipped n d in
    naive_advance_loop turns it n (cur_add it d) = (cur_add it k, n - k).
Proof.
  unfold clipped.
  induction turns as [|turns IH]; intros it n d Hf Hb Ht; simpl.
  - replace n with 0 by lia. simpl. rewrite add_0. reflexivity.
  - rewrite eqb_add_r.
    destruct (Z.eqb_spec n 0) as [Hn0|Hn0]; simpl.
    + subst n. rewrite add_0. reflexivity.
    + destruct (Z.eqb_spec d 0) as [Hd0|Hd0]; simpl.
      * subst d. destruct (Z.ltb_spec 0 n).
        -- rewrite Z.min_r by lia. rewrite add_0. f_equal; lia.
        -- rewrite Z.max_r by lia. rewrite add_0. f_equal; lia.
      * destruct (Z.ltb_spec 0 n) as [Hpos|Hle].
        -- rewrite inc_add.
           replace (cur_add it d) with (cur_add (cur_add it 1) (d - 1))
             by (rewrite add_add; f_equal; lia).
           rewrite IH by lia. rewrite add_add.
           destruct (Z.eqb_spec (n - 1) 0);
             destruct (Z.ltb_spec 0 (n - 1));
             (apply f_equal2; [apply f_equal|]; lia).
        -- rewrite dec_add.
           replace (cur_add it d) with (cur_add (cur_add it (-1)) (d + 1))
             by (rewrite add_add; f_equal; lia).
           rewrite IH by lia. rewrite add_add.
           destruct (Z.eqb_spec (n + 1) 0);
             destruct (Z.ltb_spec 0 (n + 1));
             (apply f_equal2; [apply f_equal|]; lia).
Qed.

(** The random-access overloads, when the bound lies in the direction of
    the count. *)
Lemma fwd_random_access_steps (it : I) (n d : Z) :
  0 <= d ->
  fwd_random_access it n (cur_add it d) = (cur_add it (Z.min n d), n - Z.min n d).
Proof.
  intros Hd. unfold fwd_random_access. cbn [diff_common diff_narrow exact_diff].
  rewrite sub_add_l.
  destruct (Z.ltb_spec d n).
  - rewrite Z.min_r by lia. reflexivity.
  - rewrite Z.min_l by lia. f_equal. lia.
Qed.

Lemma back_random_access_steps (it : I) (n d : Z) :
  d <= 0 ->
  back_random_access it n (cur_add it d) = (cur_add it (Z.max n d), n - Z.max n d).
Proof.
  intros Hd. unfold back_random_access. cbn [diff_common diff_narrow exact_diff].
  rewrite sub_add_r, Z.opp_involutive.
  destruct (Z.ltb_spec n d).
  - rewrite Z.max_r by lia. reflexivity.
  - rewrite Z.max_l by lia. f_equal. lia.
Qed.

(** Every overload that moves takes [clipped n d] steps and returns what
    is left of the count. *)
Lemma advance_bounded_steps (tag : iterator_category) (p : I) (n d : Z) :
  moves_in_direction tag n = true ->
  (0 < n -> 0 <= d) -> (n <= 0 -> d <= 0) ->
  advance_bounded tag p n (cur_add p d)
  = Ok (cur_add p (clipped n d), n - clipped n d).
Proof.
  intros Hm Hf Hb. unfold advance_bounded, clipped.
  destruct (Z.ltb_spec 0 n) as [Hpos|Hle].
  - destruct tag; simpl; f_equal;
      try apply fwd_random_access_steps;
      try (unfold fwd_input; apply fwd_input_loop_steps); lia.
  - destruct tag; simpl in *;
      try (apply Z.ltb_lt in Hm; lia); f_equal.
    + unfold back_bidirectional. apply back_bidirectional_loop_steps; lia.
    + apply back_random_access_steps; lia.
Qed.

Lemma naive_advance_steps (p : I) (n d : Z) :
  (0 < n -> 0 <= d) -> (n <= 0 -> d <= 0) ->
  naive_advance p n (cur_add p d) = (cur_add p (clipped n d), n - clipped n d).
Proof.
  intros Hf Hb. unfold naive_advance.
  rewrite naive_advance_loop_steps by (auto; lia).
  destruct (Z.eqb_spec n 0) as [Hn0|Hn0]; [|reflexivity].
  subst n. unfold clipped. simpl. rewrite Z.max_l by lia. reflexivity.
Qed.
End AdvanceBoundedFacts.

(** ** Bounded advance: conservation, the random-access path, failures *)

Section AdvanceBoundedClaims.
Context {I : Type} `{CursorLaws I}.

Lemma sub_add_add (p : I) (d k : Z) :
  cur_sub (cur_add p d) (cur_add p k) = d - k.
Proof. rewrite sub_add, sub_add_r. lia. Qed.

(** Conservation holds however far the bound is, as long as it lies in
    the direction of the count and the tag has an overload that moves. *)
Lemma advance_bounded_conserved (tag : iterator_category) (p : I) (n d : Z) :
  moves_in_direction tag n = true ->
  in_direction n d = true ->
  conserved tag p n (cur_add p d).
Proof.
  intros Hm Hd. unfold in_direction in Hd.
  assert (Hf : 0 < n -> 0 <= d)
    by (intros Hn; apply Z.ltb_lt in Hn; rewrite Hn in Hd; lia).
  assert (Hb : n <= 0 -> d <= 0)
    by (intros Hn; apply Z.ltb_ge in Hn; rewrite Hn in Hd; lia).
  exists (cur_add p (clipped n d)), (n - clipped n d).
  split; [apply advance_bounded_steps; assumption|].
  unfold clipped. rewrite sub_add_add, eqb_add_r.
  destruct (Z.ltb_spec 0 n) as [Hpos|Hle];
    repeat apply conj; intros; try lia; try (f_equal; lia);
    match goal with
    | Heq : (d =? 0) = true |- _ => apply Z.eqb_eq in Heq; subst d
    end;
    (split; [lia|]);
    rewrite ?Z.min_r, ?Z.max_r by lia; apply add_0.
Qed.

(** C3 (amended): for a bound reachable from [p] in the direction of [n]
    within [|n|] steps or fewer, and a tag whose overload moves in that
    direction (any tag for [n > 0], bidirectional or random access
    otherwise), [advance_bounded] returns a remainder [r] such that [p]
    has moved [n - r] steps with the sign of [n], [p] is not past the
    bound, and from [p == bound] with a count other than zero the count
    comes back whole and [p] stays. *)
Theorem advance_bounded_conservation (tag : iterator_category) (p : I) (n d : Z) :
  moves_in_direction tag n = true ->
  within_reach n d = true ->
  conserved tag p n (cur_add p d).
Proof.
  intros Hm Hw. apply advance_bounded_conserved; [assumption|].
  unfold within_reach in Hw. unfold in_direction.
  destruct (0 <? n); apply andb_prop in Hw as [Hlo Hhi]; assumption.
Qed.

(** Where the arithmetic overloads and the stepping agree: for a
    random-access position, a count [n] and a bound reachable from [p] by
    subtraction on the side the dispatch takes [n] to (ahead for [n > 0],
    not ahead for [n <= 0]), the arithmetic overloads give the same
    position and the same remainder as the reference loop that steps one
    position at a time, and as the stepping overloads of the source
    itself.  A count of zero with the bound ahead is not covered: see
    [random_access_zero_count_differs_from_stepping]. *)
Theorem random_access_path_equals_stepping (p bound : I) (n : Z) :
  cur_add p (cur_sub bound p) = bound ->
  in_direction n (cur_sub bound p) = true ->
  advance_bounded random_access_iterator_tag p n bound
    = Ok (naive_advance p n bound)
  /\ advance_bounded random_access_iterator_tag p n bound
    = advance_bounded bidirectional_iterator_tag p n bound.
Proof.
  intros Hreach Hd. remember (cur_sub bound p) as d eqn:Ed. clear Ed.
  subst bound. unfold in_direction in Hd.
  assert (Hf : 0 < n -> 0 <= d)
    by (intros Hn; apply Z.ltb_lt in Hn; rewrite Hn in Hd; lia).
  assert (Hb : n <= 0 -> d <= 0)
    by (intros Hn; apply Z.ltb_ge in Hn; rewrite Hn in Hd; lia).
  rewrite naive_advance_steps by assumption.
  rewrite !advance_bounded_steps by (assumption || reflexivity).
  split; reflexivity.
Qed.
End AdvanceBoundedClaims.

Section AdvanceBoundedDispatch.
Context {I : Type} `{Cursor I}.

(** The cases of [fwd] and [back] are the overloads that overload
    resolution selects among those the source declares. *)
Lemma fwd_overload (it end_ : I) (n : Z) (tag : iterator_category) :
  fwd it n end_ tag
  = match nearest_overload [input_iterator_tag; random_access_iterator_tag] tag with
    | Some random_access_iterator_tag => Ok (fwd_random_access it n end_)
    | _ => Ok (fwd_input it n end_)
    end
  /\ nearest_overload [input_iterator_tag; random_access_iterator_tag] tag <> None.
Proof. destruct tag; split; reflexivity || discriminate. Qed.

Lemma back_overload (it begin : I) (n : Z) (tag : iterator_category) :
  back it n begin tag
  = match nearest_overload [input_iterator_tag; bidirectional_iterator_tag;
                            random_access_iterator_tag] tag with
    | Some random_access_iterator_tag => Ok (back_random_access it n begin)
    | Some bidirectional_iterator_tag => Ok (back_bidirectional it n begin)
    | _ => back_input it n begin
    end
  /\ nearest_overload [input_iterator_tag; bidirectional_iterator_tag;
                       random_access_iterator_tag] tag <> None.
Proof. destruct tag; split; reflexivity || discriminate. Qed.

(** C7: with a negative count on an input-tier position the call ends
    in the failed assertion of [back]'s input overload; it returns
    neither a position nor a count. *)
Theorem advance_bounded_input_backward_asserts (p bound : I) (n : Z) :
  n < 0 ->
  advance_bounded input_iterator_tag p n bound = AssertionFailed.
Proof.
  intros Hn. unfold advance_bounded.
  destruct (Z.ltb_spec 0 n); [lia|]. reflexivity.
Qed.

(** For a call whose conversions change no value, every [Diff] gives
    what [exact_diff] gives: the operands of the comparison are held by
    the common type and, when the bound is nearer than the count, what is
    left of the count is held by [Diff].  The stepping overloads convert
    nothing. *)
Lemma advance_bounded_exact (D : DiffType) (tag : iterator_category)
    (p bound : I) (n : Z) :
  (tag = random_access_iterator_tag ->
   let room := if 0 <? n then cur_sub bound p else - cur_sub p bound in
   @diff_common D room = room
   /\ @diff_common D n = n
   /\ ((if 0 <? n then room <? n else n <? room) = true ->
       @diff_narrow D (n - room) = n - room)) ->
  advance_bounded (D := D) tag p n bound
  = advance_bounded (D := exact_diff) tag p n bound.
Proof.
  intros Hconv. unfold advance_bounded.
  destruct (0 <? n); destruct tag; try reflexivity;
    destruct (Hconv eq_refl) as (Hroom & Hn & Hsub);
    unfold fwd, back, fwd_random_access, back_random_access;
    cbn [diff_common diff_narrow exact_diff];
    rewrite Hroom, Hn;
    match goal with
    | |- context [if ?c then _ else _] =>
        destruct c; [rewrite Hsub by reflexivity|]; reflexivity
    end.
Qed.

(** C10 (amended): with a positive count and a bound strictly before a
    random-access position, in a call whose conversions change no value
    (the negative room and the count are held by the common type, and
    [n - room] is held by [Diff]), the position is set to the bound and
    the count comes back as [n - room], larger than it went in. *)
Theorem advance_bounded_forward_bound_behind
    (D : DiffType) (p bound : I) (n : Z) :
  0 < n ->
  cur_sub bound p < 0 ->
  conversions_exact D n (cur_sub bound p) ->
  advance_bounded (D := D) random_access_iterator_tag p n bound
    = Ok (bound, n - cur_sub bound p)
  /\ n < n - cur_sub bound p.
Proof.
  intros Hn Hroom (Hcr & Hcn & Hnarrow).
  unfold advance_bounded, fwd, fwd_random_access.
  destruct (Z.ltb_spec 0 n); [|lia].
  rewrite Hcr, Hcn, Hnarrow.
  destruct (Z.ltb_spec (cur_sub bound p) n); [|lia].
  split; [reflexivity|lia].
Qed.

(** A count of zero goes to [back]: the bidirectional overload leaves at
    once. *)
Lemma advance_bounded_zero_bidirectional (p bound : I) :
  advance_bounded bidirectional_iterator_tag p 0 bound = Ok (p, 0).
Proof. reflexivity. Qed.

(** The random-access overload of [back] with a count of zero. *)
Lemma advance_bounded_zero_random_access (p bound : I) :
  advance_bounded random_access_iterator_tag p 0 bound
  = if 0 <? - cur_sub p bound
    then Ok (bound, 0 - - cur_sub p bound)
    else Ok (cur_add p 0, 0).
Proof.
  unfold advance_bounded, back, back_random_access.
  cbn [diff_common diff_narrow exact_diff Z.ltb Z.compare].
  destruct (0 <? - cur_sub p bound); reflexivity.
Qed.

(** The input overload of [back] with a count of zero. *)
Lemma advance_bounded_zero_input (p bound : I) :
  advance_bounded input_iterator_tag p 0 bound = AssertionFailed.
Proof. reflexivity. Qed.
End AdvanceBoundedDispatch.

(** C2 (the code at the failing inputs): a count of zero with the bound
    three steps ahead moves a random-access position onto the bound and
    returns -3; on an input-tier position the call fails the assertion. *)
Theorem advance_bounded_zero_count_moves :
  advance_bounded random_access_iterator_tag (2 : Z) 0 5 = Ok (5, -3)
  /\ advance_bounded input_iterator_tag (2 : Z) 0 5 = AssertionFailed.
Proof. split; reflexivity. Qed.

(** C4 (the code at the failing input): with a count of zero and the
    bound three steps ahead, the random-access overload goes onto the
    bound and returns -3, while the reference loop and the source's
    stepping overload stay and return 0. *)
Theorem random_access_zero_count_differs_from_stepping :
  advance_bounded random_access_iterator_tag (2 : Z) 0 5 = Ok (5, -3)
  /\ naive_advance (2 : Z) 0 5 = (2, 0)
  /\ advance_bounded bidirectional_iterator_tag (2 : Z) 0 5 = Ok (2, 0).
Proof. repeat split. Qed.

(** C10 (as stated, refuted): with a 32-bit signed [Diff], the count
    2^31 - 1 and the bound one step behind the position, the stored
    remainder wraps to -2^31: the position is on the bound, but no
    remainder larger than the count comes back. *)
Lemma forward_bound_behind_wraps :
  0 < 2147483647
  /\ cur_sub (-1) (0 : Z) < 0
  /\ advance_bounded (D := signed_diff 32) random_access_iterator_tag
       (0 : Z) 2147483647 (-1) = Ok (-1, -2147483648)
  /\ ~ (exists r : Z,
          advance_bounded (D := signed_diff 32) random_access_iterator_tag
            (0 : Z) 2147483647 (-1) = Ok (-1, r)
          /\ 2147483647 < r).
Proof.
  assert (Hrun : advance_bounded (D := signed_diff 32) random_access_iterator_tag
                   (0 : Z) 2147483647 (-1) = Ok (-1, -2147483648))
    by (vm_compute; reflexivity).
  repeat split; try reflexivity; try exact Hrun.
  intros (r & Hcall & Hlt). rewrite Hrun in Hcall.
  injection Hcall as <-. lia.
Qed.

(** With an unsigned 64-bit [Diff] the negative room is compared as
    2^64 - 3: the position goes forward by the count and 0 comes back. *)
Lemma forward_bound_behind_unsigned :
  advance_bounded (D := unsigned_diff 64) random_access_iterator_tag (7 : Z) 2 4
  = Ok (9, 0).
Proof. vm_compute. reflexivity. Qed.

(** C3 (as stated, refuted): the bound is the position itself, the count
    is -1, the position is input-tier: nothing is returned. *)
Lemma input_backward_breaks_conservation :
  within_reach (-1) 0 = true
  /\ ~ conserved input_iterator_tag (0 : Z) (-1) (cur_add 0 0).
Proof.
  split; [reflexivity|].
  intros (p' & r & Hcall & _). discriminate Hcall.
Qed.

Lemma advance_bounded_conservation_witness :
  conserved random_access_iterator_tag (2 : Z) 5 (cur_add 2 3).
Proof.
  apply (advance_bounded_conservation random_access_iterator_tag (2 : Z) 5 3);
    reflexivity.
Defined.

Lemma random_access_path_equals_stepping_witness :
  advance_bounded random_access_iterator_tag (2 : Z) (-5) (-1)
    = Ok (naive_advance (2 : Z) (-5) (-1))
  /\ advance_bounded random_access_iterator_tag (2 : Z) (-5) (-1)
    = advance_bounded bidirectional_iterator_tag (2 : Z) (-5) (-1).
Proof.
  apply (random_access_path_equals_stepping (2 : Z) (-1) (-5)); reflexivity.
Defined.

Lemma advance_bounded_input_backward_asserts_witness :
  advance_bounded input_iterator_tag (4 : Z) (-2) 0 = AssertionFailed.
Proof.
  apply (advance_bounded_input_backward_asserts (4 : Z) 0 (-2)). reflexivity.
Defined.

Lemma advance_bounded_forward_bound_behind_witness :
  advance_bounded (D := signed_diff 32) random_access_iterator_tag (7 : Z) 2 4
    = Ok (4, 2 - cur_sub (4 : Z) 7)
  /\ 2 < 2 - cur_sub (4 : Z) 7.
Proof.
  apply (advance_bounded_forward_bound_behind (signed_diff 32) (7 : Z) 4 2);
    [reflexivity | reflexivity | repeat split].
Defined.

(** ** The zip iterator *)

Section TupleFacts.
Context {A : Type}.

Lemma fold_left_orb (bs : list bool) :
  forall acc : bool,
    fold_left (fun a b : bool => a || b) bs acc = acc || existsb (fun b => b) bs.
Proof.
  induction bs as [|b bs IH]; intros acc; simpl.
  - rewrite orb_false_r. reflexivity.
  - rewrite IH. rewrite orb_assoc. reflexivity.
Qed.

Lemma nth_error_combine (t u : list A) :
  forall (i : nat) (x y : A),
    nth_error (combine t u) i = Some (x, y)
    <-> nth_error t i = Some x /\ nth_error u i = Some y.
Proof.
  revert u. induction t as [|a t IH]; intros u i x y.
  - simpl. destruct i; simpl; split; try discriminate; intros [Hx _]; discriminate.
  - destruct u as [|b u]; simpl.
    + destruct i; simpl; split; try discriminate; intros [_ Hy]; discriminate.
    + destruct i as [|i]; simpl.
      * split.
        -- intros Hxy. injection Hxy as -> ->. split; reflexivity.
        -- intros [Hx Hy]. injection Hx as ->. injection Hy as ->. reflexivity.
      * apply IH.
Qed.
End TupleFacts.

Section ZipFacts.
Context {R I : Type} `{Cursor I}.

Lemma equal_existsb (this that : basic_iterator R I) :
  equal this that
  = existsb (fun p => detail.equal_to (fst p) (snd p))
            (combine (its_ this) (its_ that)).
Proof.
  unfold equal, tuple_foldl, tuple_transform2.
  rewrite fold_left_orb. simpl.
  induction (combine (its_ this) (its_ that)) as [|p l IH]; simpl.
  - reflexivity.
  - rewrite IH. reflexivity.
Qed.

Lemma equal_iff_some_component (this that : basic_iterator R I) :
  equal this that = true
  <-> exists (i : nat) (t u : I),
        nth_error (its_ this) i = Some t
        /\ nth_error (its_ that) i = Some u
        /\ detail.equal_to t u = true.
Proof.
  rewrite equal_existsb, existsb_exists. split.
  - intros ([t u] & Hin & Heq). apply In_nth_error in Hin as [i Hi].
    apply nth_error_combine in Hi as [Ht Hu].
    exists i, t, u. auto.
  - intros (i & t & u & Ht & Hu & Heq).
    exists (t, u). split; [|exact Heq].
    apply (nth_error_In _ i). apply nth_error_combine. auto.
Qed.
End ZipFacts.

(** C1: two zip positions are equal exactly when some pair of
    corresponding component positions is equal (the fold of the
    component-wise results with [||] from [false]); this is not the
    conjunction over all pairs: after three increments the zip of
    [a,b,c] and [x,y,z,w,v] is equal to its end, with one of the two pairs
    unequal. *)
Theorem zip_equal_is_any :
  (forall (R I : Type) (C : Cursor I) (this that : basic_iterator R I),
      equal this that = true
      <-> exists (i : nat) (t u : I),
            nth_error (its_ this) i = Some t
            /\ nth_error (its_ that) i = Some u
            /\ detail.equal_to t u = true)
  /\ (exists this : basic_iterator (list ascii) (vec_iter ascii),
        length (its_ this) = length (its_ (zip_end abc_xyzwv))
        /\ equal this (zip_end abc_xyzwv) = true
        /\ all_components_equal this (zip_end abc_xyzwv) = false).
Proof.
  split.
  - intros R I C this that. apply equal_iff_some_component.
  - exists (advance (zip_begin abc_xyzwv) 3).
    repeat split.
Qed.

(** C8: [increment] fails its assertion on a position equal to the end
    of the view and otherwise moves every component one step forward;
    [decrement] fails its assertion on a position equal to the begin of
    the view and otherwise moves every component one step backward.  On a
    position that is not equal to the end (the begin), the assertion holds
    and the call returns the moved position. *)
Theorem zip_increment_decrement :
  forall (R I : Type) (C : Cursor I) (Rg : Range R I) (this : basic_iterator R I),
    let moved f := mk_basic_iterator (rng_ this) (map f (its_ this)) in
    increment this
      = (if equal this (zip_end (rng_ this)) then AssertionFailed
         else Ok (moved cur_inc))
    /\ decrement this
      = (if equal this (zip_begin (rng_ this)) then AssertionFailed
         else Ok (moved cur_dec))
    /\ (equal this (zip_end (rng_ this)) = false ->
          increment this = Ok (moved cur_inc))
    /\ (equal this (zip_begin (rng_ this)) = false ->
          decrement this = Ok (moved cur_dec))
    /\ (forall (i : nat),
          nth_error (its_ (moved cur_inc)) i
            = option_map cur_inc (nth_error (its_ this) i)
          /\ nth_error (its_ (moved cur_dec)) i
            = option_map cur_dec (nth_error (its_ this) i)).
Proof.
  intros R I C Rg this moved.
  assert (Hinc : increment this
                 = (if equal this (zip_end (rng_ this)) then AssertionFailed
                    else Ok (moved cur_inc))).
  { unfold increment. destruct (equal this (zip_end (rng_ this))); reflexivity. }
  assert (Hdec : decrement this
                 = (if equal this (zip_begin (rng_ this)) then AssertionFailed
                    else Ok (moved cur_dec))).
  { unfold decrement. destruct (equal this (zip_begin (rng_ this))); reflexivity. }
  repeat apply conj.
  - exact Hinc.
  - exact Hdec.
  - intros Hne. rewrite Hinc, Hne. reflexivity.
  - intros Hne. rewrite Hdec, Hne. reflexivity.
  - intros i. split; apply nth_error_map.
Qed.

(** The position after one increment of the begin of the example view:
    both preconditions hold there. *)
Lemma zip_increment_decrement_witness :
  let this := advance (zip_begin abc_xyzwv) 1 in
  equal this (zip_end abc_xyzwv) = false
  /\ equal this (zip_begin abc_xyzwv) = false
  /\ increment this = Ok (advance (zip_begin abc_xyzwv) 2)
  /\ decrement this = Ok (zip_begin abc_xyzwv).
Proof.
  intros this.
  destruct (zip_increment_decrement (list ascii) (vec_iter ascii) _ _ this)
    as (_ & _ & Hinc & Hdec & _).
  split; [reflexivity|]. split; [reflexivity|].
  split; [apply Hinc | apply Hdec]; reflexivity.
Defined.

Section ZipDistance.
Context {R I : Type} `{Cursor I} {lim : numeric_limits}.

Lemma min__is_min (t u : Z) : detail.min_ t u = Z.min t u.
Proof. unfold detail.min_. destruct (Z.ltb_spec t u); lia. Qed.

Lemma max__is_max (t u : Z) : detail.max_ t u = Z.max t u.
Proof. unfold detail.max_. destruct (Z.ltb_spec t u); lia. Qed.

Lemma fold_left_min_ (ds : list Z) :
  forall acc : Z, fold_left detail.min_ ds acc = fold_left Z.min ds acc.
Proof.
  induction ds as [|d ds IH]; intros acc; simpl; [reflexivity|].
  rewrite min__is_min. apply IH.
Qed.

Lemma fold_left_max_ (ds : list Z) :
  forall acc : Z, fold_left detail.max_ ds acc = fold_left Z.max ds acc.
Proof.
  induction ds as [|d ds IH]; intros acc; simpl; [reflexivity|].
  rewrite max__is_max. apply IH.
Qed.

(** What [distance_to] returns, with the seeds of its two folds. *)
Lemma distance_to_folds (this that : basic_iterator R I) :
  distance_to this that
  = match component_distances this that with
    | [] => None
    | d0 :: _ =>
        if 0 <? d0
        then Some (fold_left Z.min (component_distances this that) limits_max)
        else Some (fold_left Z.max (component_distances this that) limits_min)
    end.
Proof.
  unfold distance_to, component_distances, tuple_foldl, tuple_transform2.
  destruct (its_ this) as [|t0 ts]; [reflexivity|].
  destruct (its_ that) as [|u0 us]; [reflexivity|].
  cbn [combine map fst snd].
  rewrite fold_left_min_, fold_left_max_. reflexivity.
Qed.
End ZipDistance.

(** C5: with every component distance a value of the difference type,
    the distance from [this] to [that] is the minimum of the component
    distances when the distance between the first components is positive,
    and their maximum otherwise. *)
Theorem zip_distance_to_min_or_max :
  forall (R I : Type) (C : Cursor I) (lim : numeric_limits)
         (this that : basic_iterator R I),
    Forall (fun d => limits_min <= d <= limits_max)
           (component_distances this that) ->
    distance_to this that = distance_rule this that.
Proof.
  intros R I C lim this that Hrange.
  rewrite distance_to_folds. unfold distance_rule, fold_with.
  destruct (component_distances this that) as [|d0 ds]; [reflexivity|].
  inversion Hrange as [|? ? Hd0 _]; subst. cbn [fold_left].
  rewrite Z.min_r, Z.max_r by lia. reflexivity.
Qed.

Lemma zip_distance_to_min_or_max_witness :
  @distance_to (list ascii) _ _ ptrdiff_limits
     (zip_begin abc_xyzwv) (zip_end abc_xyzwv) = Some 3
  /\ @distance_to (list ascii) _ _ ptrdiff_limits
     (zip_end abc_xyzwv) (zip_begin abc_xyzwv) = Some (-3).
Proof.
  split.
  - rewrite (zip_distance_to_min_or_max (list ascii) (vec_iter ascii) _
               ptrdiff_limits (zip_begin abc_xyzwv) (zip_end abc_xyzwv)).
    + reflexivity.
    + repeat constructor; simpl; lia.
  - rewrite (zip_distance_to_min_or_max (list ascii) (vec_iter ascii) _
               ptrdiff_limits (zip_end abc_xyzwv) (zip_begin abc_xyzwv)).
    + reflexivity.
    + repeat constructor; simpl; lia.
Defined.

(** C6: a traversal of the zip of [a,b,c] and [x,y,z,w,v] from begin to
    end sees (a,x), (b,y), (c,z) in this order and leaves by its own test,
    however many more turns it is allowed; the position is not equal to
    the end after one and after two increments and is equal to it after
    the third, where the second component is still two steps short of its
    own end; a fourth increment fails the assertion. *)
Theorem zip_shortest_wins :
  (forall k : nat,
      traverse (3 + k) abc_xyzwv
      = Some ([ [Some "a"; Some "x"]; [Some "b"; Some "y"]; [Some "c"; Some "z"] ]%char,
              true))
  /\ (exists it1 it2 it3 : basic_iterator (list ascii) (vec_iter ascii),
        increment_n 1 (zip_begin abc_xyzwv) = Ok it1
        /\ increment_n 2 (zip_begin abc_xyzwv) = Ok it2
        /\ increment_n 3 (zip_begin abc_xyzwv) = Ok it3
        /\ equal (zip_begin abc_xyzwv) (zip_end abc_xyzwv) = false
        /\ equal it1 (zip_end abc_xyzwv) = false
        /\ equal it2 (zip_end abc_xyzwv) = false
        /\ equal it3 (zip_end abc_xyzwv) = true
        /\ map vi_pos (its_ it3) = [3; 3]
        /\ map vi_pos (its_ (zip_end abc_xyzwv)) = [3; 5])
  /\ increment_n 4 (zip_begin abc_xyzwv) = AssertionFailed.
Proof.
  split; [|split].
  - intros k. destruct k; reflexivity.
  - eexists _, _, _. repeat split.
  - reflexivity.
Qed.

(** ** The category of the zip iterator *)

Lemma conditional_type_min (a b : iterator_category) :
  conditional_type a b = Some (tier_min a b).
Proof. destruct a, b; reflexivity. Qed.

Lemma tier_min_comm (a b : iterator_category) : tier_min a b = tier_min b a.
Proof. destruct a, b; reflexivity. Qed.

Lemma tier_min_assoc (a b c : iterator_category) :
  tier_min a (tier_min b c) = tier_min (tier_min a b) c.
Proof. destruct a, b, c; reflexivity. Qed.

Lemma tier_min_le_l (a b : iterator_category) : (tier (tier_min a b) <= tier a)%nat.
Proof. destruct a, b; simpl; lia. Qed.

Lemma tier_min_le_r (a b : iterator_category) : (tier (tier_min a b) <= tier b)%nat.
Proof. destruct a, b; simpl; lia. Qed.

Lemma tier_min_cases (a b : iterator_category) :
  tier_min a b = a \/ tier_min a b = b.
Proof. destruct a, b; simpl; auto. Qed.

Lemma converts_to_tier (d b : iterator_category) :
  converts_to d b = (tier b <=? tier d)%nat.
Proof. destruct d, b; reflexivity. Qed.

Lemma common_type_from_min (ts : list iterator_category) :
  forall acc : iterator_category,
    common_type_from acc ts = Some (minimum_tier acc ts).
Proof.
  unfold minimum_tier.
  induction ts as [|t ts IH]; intros acc; simpl; [reflexivity|].
  rewrite conditional_type_min, IH. f_equal.
  clear IH. induction ts as [|u ts IH]; simpl.
  - apply tier_min_comm.
  - rewrite IH, !tier_min_assoc, (tier_min_comm u t). reflexivity.
Qed.

Lemma minimum_tier_member (ts : list iterator_category) (t : iterator_category) :
  In (minimum_tier t ts) (t :: ts).
Proof.
  unfold minimum_tier. induction ts as [|u ts IH]; simpl.
  - left. reflexivity.
  - destruct (tier_min_cases u (fold_right tier_min t ts)) as [-> | ->].
    + right. left. reflexivity.
    + destruct IH as [IH|IH]; [left; exact IH | right; right; exact IH].
Qed.

Lemma minimum_tier_lower_bound (ts : list iterator_category) (t : iterator_category) :
  Forall (fun c => (tier (minimum_tier t ts) <= tier c)%nat) (t :: ts).
Proof.
  unfold minimum_tier. induction ts as [|u ts IH]; simpl.
  - constructor; [lia | constructor].
  - pose proof (tier_min_le_l u (fold_right tier_min t ts)) as Hl.
    pose proof (tier_min_le_r u (fold_right tier_min t ts)) as Hr.
    inversion IH as [|? ? Ht Hts]; subst.
    constructor; [lia|]. constructor; [exact Hl|].
    eapply Forall_impl; [|exact Hts]. simpl. intros c Hc. lia.
Qed.

(** C9: the category of the zip iterator over one or more ranges is the
    lowest-tier category among them: it is one of them and no component's
    tier is below it.  A random-access and an input range zip to an input
    iterator, on which the facade offers none of the operations that need
    random access (nor decrement). *)
Theorem zip_category_is_minimum :
  (forall (t : iterator_category) (ts : list iterator_category),
      zip_iterator_category (t :: ts) = Some (minimum_tier t ts)
      /\ In (minimum_tier t ts) (t :: ts)
      /\ Forall (fun c => (tier (minimum_tier t ts) <= tier c)%nat) (t :: ts))
  /\ zip_iterator_category [random_access_iterator_tag; input_iterator_tag]
     = Some input_iterator_tag
  /\ zip_iterator_category [input_iterator_tag; random_access_iterator_tag]
     = Some input_iterator_tag
  /\ (forall op : facade_operation,
        facade_accepts input_iterator_tag op = true
        <-> required_category op = input_iterator_tag)
  /\ facade_accepts input_iterator_tag op_advance = false
  /\ facade_accepts input_iterator_tag op_distance_to = false.
Proof.
  split; [|repeat split].
  - intros t ts. split; [|split].
    + apply common_type_from_min.
    + apply minimum_tier_member.
    + apply minimum_tier_lower_bound.
  - destruct op; simpl; intros Hacc; reflexivity || discriminate Hacc.
  - destruct op; simpl; intros Hreq; reflexivity || discriminate Hreq.
Qed.

(* ================================================================== *)
(** * Part III: further properties of the two headers                  *)
(* ================================================================== *)

(** ** The stepping overloads, for any iterator type *)

Section SteppingTrace.
Context {I : Type} `{Cursor I}.

Lemma fwd_input_loop_trace (turns : nat) :
  forall (it : I) (n : Z) (bound : I),
    (Z.to_nat n <= turns)%nat ->
    exists k : nat,
      fwd_input_loop turns it n bound = (Nat.iter k cur_inc it, n - Z.of_nat k)
      /\ Z.of_nat k <= Z.max 0 n
      /\ (forall j : nat, (j < k)%nat -> cur_eqb (Nat.iter j cur_inc it) bound = false)
      /\ (Z.of_nat k < n -> cur_eqb (Nat.iter k cur_inc it) bound = true).
Proof.
  induction turns as [|turns IH]; intros it n bound Ht.
  - exists O. simpl. split; [|split; [|split]].
    + f_equal. lia.
    + lia.
    + intros j Hj. lia.
    + lia.
  - simpl. destruct ((0 <? n) && negb (cur_eqb it bound)) eqn:Hc.
    + apply andb_prop in Hc as [Hpos Hne].
      apply Z.ltb_lt in Hpos. apply negb_true_iff in Hne.
      destruct (IH (cur_inc it) (n - 1) bound) as (k & Hr & Hk & Hbefore & Hat); [lia|].
      exists (S k). rewrite Hr, !Nat.iter_succ_r. split; [|split; [|split]].
      * f_equal. lia.
      * lia.
      * intros [|j] Hj; [exact Hne|].
        rewrite Nat.iter_succ_r. apply Hbefore. lia.
      * intros Hlt. apply Hat. lia.
    + exists O. simpl. split; [|split; [|split]].
      * f_equal. lia.
      * lia.
      * intros j Hj. lia.
      * intros Hlt. apply Z.ltb_lt in Hlt. rewrite Hlt in Hc. simpl in Hc.
        apply negb_false_iff in Hc. exact Hc.
Qed.

Lemma back_bidirectional_loop_trace (turns : nat) :
  forall (it : I) (n : Z) (bound : I),
    (Z.to_nat (- n) <= turns)%nat ->
    exists k : nat,
      back_bidirectional_loop turns it n bound = (Nat.iter k cur_dec it, n + Z.of_nat k)
      /\ Z.of_nat k <= Z.max 0 (- n)
      /\ (forall j : nat, (j < k)%nat -> cur_eqb (Nat.iter j cur_dec it) bound = false)
      /\ (n + Z.of_nat k < 0 -> cur_eqb (Nat.iter k cur_dec it) bound = true).
Proof.
  induction turns as [|turns IH]; intros it n bound Ht.
  - exists O. simpl. split; [|split; [|split]].
    + f_equal. lia.
    + lia.
    + intros j Hj. lia.
    + lia.
  - simpl. destruct ((n <? 0) && negb (cur_eqb it bound)) eqn:Hc.
    + apply andb_prop in Hc as [Hneg Hne].
      apply Z.ltb_lt in Hneg. apply negb_true_iff in Hne.
      destruct (IH (cur_dec it) (n + 1) bound) as (k & Hr & Hk & Hbefore & Hat); [lia|].
      exists (S k). rewrite Hr, !Nat.iter_succ_r. split; [|split; [|split]].
      * f_equal. lia.
      * lia.
      * intros [|j] Hj; [exact Hne|].
        rewrite Nat.iter_succ_r. apply Hbefore. lia.
      * intros Hlt. apply Hat. lia.
    + exists O. simpl. split; [|split; [|split]].
      * f_equal. lia.
      * lia.
      * intros j Hj. lia.
      * intros Hlt. replace (n + 0) with n in Hlt by lia.
        apply Z.ltb_lt in Hlt. rewrite Hlt in Hc. simpl in Hc.
        apply negb_false_iff in Hc. exact Hc.
Qed.

(** X1: with a positive count and a tag below random access,
    [advance_bounded] applies [++] some [k <= n] times and returns
    [n - k]; no position before the [k]-th compares equal to the bound,
    and when count is left over the final position does.  Nothing is
    assumed of the iterator type. *)
Theorem advance_bounded_stepping_forward
    (tag : iterator_category) (p bound : I) (n : Z) :
  tag <> random_access_iterator_tag ->
  0 < n ->
  exists k : nat,
    advance_bounded tag p n bound = Ok (Nat.iter k cur_inc p, n - Z.of_nat k)
    /\ 0 <= Z.of_nat k <= n
    /\ (forall j : nat, (j < k)%nat -> cur_eqb (Nat.iter j cur_inc p) bound = false)
    /\ (Z.of_nat k < n -> cur_eqb (Nat.iter k cur_inc p) bound = true).
Proof.
  intros Htag Hn.
  destruct (fwd_input_loop_trace (Z.to_nat n) p n bound (Nat.le_refl _))
    as (k & Hr & Hk & Hbefore & Hat).
  exists k. unfold advance_bounded.
  destruct (Z.ltb_spec 0 n); [|lia].
  repeat split; try assumption; try lia.
  destruct tag; try contradiction; unfold fwd, fwd_input; rewrite Hr; reflexivity.
Qed.

(** X2: with a count that is not positive, the bidirectional overload
    applies [--] some [k <= -n] times and returns [n + k]; no position
    before the [k]-th compares equal to the bound, and when count is left
    over the final position does. *)
Theorem advance_bounded_stepping_backward (p bound : I) (n : Z) :
  n <= 0 ->
  exists k : nat,
    advance_bounded bidirectional_iterator_tag p n bound
      = Ok (Nat.iter k cur_dec p, n + Z.of_nat k)
    /\ n <= n + Z.of_nat k <= 0
    /\ (forall j : nat, (j < k)%nat -> cur_eqb (Nat.iter j cur_dec p) bound = false)
    /\ (n + Z.of_nat k < 0 -> cur_eqb (Nat.iter k cur_dec p) bound = true).
Proof.
  intros Hn.
  destruct (back_bidirectional_loop_trace (Z.to_nat (- n)) p n bound (Nat.le_refl _))
    as (k & Hr & Hk & Hbefore & Hat).
  exists k. unfold advance_bounded.
  destruct (Z.ltb_spec 0 n); [lia|].
  repeat split; try assumption; try lia.
  unfold back, back_bidirectional. rewrite Hr. reflexivity.
Qed.
End SteppingTrace.

Lemma advance_bounded_stepping_forward_witness :
  exists k : nat,
    advance_bounded forward_iterator_tag (2 : Z) 5 4
      = Ok (Nat.iter k cur_inc (2 : Z), 5 - Z.of_nat k)
    /\ 0 <= Z.of_nat k <= 5
    /\ (forall j : nat, (j < k)%nat -> cur_eqb (Nat.iter j cur_inc (2 : Z)) 4 = false)
    /\ (Z.of_nat k < 5 -> cur_eqb (Nat.iter k cur_inc (2 : Z)) 4 = true).
Proof.
  apply (advance_bounded_stepping_forward forward_iterator_tag (2 : Z) 4 5).
  - discriminate.
  - reflexivity.
Defined.

Lemma advance_bounded_stepping_backward_witness :
  exists k : nat,
    advance_bounded bidirectional_iterator_tag (2 : Z) (-5) 0
      = Ok (Nat.iter k cur_dec (2 : Z), -5 + Z.of_nat k)
    /\ -5 <= -5 + Z.of_nat k <= 0
    /\ (forall j : nat, (j < k)%nat -> cur_eqb (Nat.iter j cur_dec (2 : Z)) 0 = false)
    /\ (-5 + Z.of_nat k < 0 -> cur_eqb (Nat.iter k cur_dec (2 : Z)) 0 = true).
Proof.
  apply (advance_bounded_stepping_backward (2 : Z) 0 (-5)).
  discriminate.
Defined.

(** ** Bounded advance on a sequence: far bounds, splitting, going back *)

Section AdvanceBoundedMore.
Context {I : Type} `{CursorLaws I}.

Lemma advance_bounded_steps_at (tag : iterator_category) (p bound : I) (n d : Z) :
  bound = cur_add p d ->
  moves_in_direction tag n = true ->
  (0 < n -> 0 <= d) -> (n <= 0 -> d <= 0) ->
  advance_bounded tag p n bound = Ok (cur_add p (clipped n d), n - clipped n d).
Proof. intros ->. apply advance_bounded_steps. Qed.

Lemma in_direction_cases (n d : Z) :
  in_direction n d = true -> (0 < n -> 0 <= d) /\ (n <= 0 -> d <= 0).
Proof.
  unfold in_direction. destruct (Z.ltb_spec 0 n); intros Hd; split; lia.
Qed.

(** A bound behind the position is never met by the forward loop. *)
Lemma fwd_input_loop_bound_behind (turns : nat) :
  forall (it : I) (n d : Z),
    d < 0 -> 0 <= n -> (Z.to_nat n <= turns)%nat ->
    fwd_input_loop turns it n (cur_add it d) = (cur_add it n, 0).
Proof.
  induction turns as [|turns IH]; intros it n d Hd Hn Ht; simpl.
  - replace n with 0 by lia. rewrite add_0. reflexivity.
  - rewrite eqb_add_r.
    destruct (Z.ltb_spec 0 n) as [Hpos|Hle]; simpl.
    + destruct (Z.eqb_spec d 0) as [Hd0|Hd0]; [lia|]. simpl.
      rewrite inc_add.
      replace (cur_add it d) with (cur_add (cur_add it 1) (d - 1))
        by (rewrite add_add; f_equal; lia).
      rewrite IH by lia. rewrite add_add. f_equal. f_equal. lia.
    + replace n with 0 by lia. rewrite add_0. reflexivity.
Qed.


(** X4: a count may be taken in two parts.  For two counts of the same
    direction and a bound in that direction, advancing by [n1] and then
    by [n2] from where the first call stopped ends at the same position
    as one call with [n1 + n2], and the two remainders add up to its
    remainder. *)
Theorem advance_bounded_splits (tag : iterator_category) (p : I) (n1 n2 d : Z) :
  moves_in_direction tag n1 = true ->
  moves_in_direction tag n2 = true ->
  (0 <? n1) = (0 <? n2) ->
  in_direction n1 d = true ->
  bind (advance_bounded tag p n1 (cur_add p d))
       (fun s1 =>
          bind (advance_bounded tag (fst s1) n2 (cur_add p d))
               (fun s2 => Ok (fst s2, snd s1 + snd s2)))
  = advance_bounded tag p (n1 + n2) (cur_add p d).
Proof.
  intros Hm1 Hm2 Hsame Hd. apply in_direction_cases in Hd as [Hf Hb].
  assert (Hdir : (0 < n1 /\ 0 < n2) \/ (n1 <= 0 /\ n2 <= 0)).
  { destruct (Z.ltb_spec 0 n1); destruct (Z.ltb_spec 0 n2);
      try discriminate; lia. }
  assert (Hm : moves_in_direction tag (n1 + n2) = true).
  { destruct tag; simpl in *; try reflexivity;
      apply Z.ltb_lt in Hm1; apply Z.ltb_lt in Hm2; apply Z.ltb_lt; lia. }
  rewrite (advance_bounded_steps tag p n1 d) by assumption.
  rewrite (advance_bounded_steps tag p (n1 + n2) d) by (assumption || lia).
  cbn [bind fst snd].
  rewrite (advance_bounded_steps_at tag (cur_add p (clipped n1 d)) (cur_add p d)
             n2 (d - clipped n1 d)).
  - cbn [bind fst snd]. rewrite add_add. unfold clipped.
    destruct (Z.ltb_spec 0 n1); destruct (Z.ltb_spec 0 n2);
      destruct (Z.ltb_spec 0 (n1 + n2)); try lia;
      (f_equal; apply f_equal2; [apply f_equal|]; lia).
  - rewrite add_add. f_equal. lia.
  - assumption.
  - unfold clipped. destruct (Z.ltb_spec 0 n1); lia.
  - unfold clipped. destruct (Z.ltb_spec 0 n1); lia.
Qed.

(** X5: going there and back.  On an iterator that is at least
    bidirectional, after a bounded advance by [n] towards a bound in the
    direction of [n], a bounded advance by the steps taken, negated, with
    the starting position as the bound, is back at the start with
    remainder 0. *)
Theorem advance_bounded_there_and_back (tag : iterator_category) (p : I) (n d : Z) :
  converts_to tag bidirectional_iterator_tag = true ->
  in_direction n d = true ->
  bind (advance_bounded tag p n (cur_add p d))
       (fun s => advance_bounded tag (fst s) (- (n - snd s)) p)
  = Ok (p, 0).
Proof.
  intros Htag Hd. apply in_direction_cases in Hd as [Hf Hb].
  assert (Hm : forall m, moves_in_direction tag m = true)
    by (intros m; destruct tag; simpl in *; reflexivity || discriminate).
  rewrite advance_bounded_steps by auto. cbn [bind fst snd].
  set (k := clipped n d).
  rewrite (advance_bounded_steps_at tag (cur_add p k) p (- (n - (n - k))) (- k)).
  - unfold clipped. rewrite add_add.
    destruct (Z.ltb_spec 0 (- (n - (n - k))));
      (f_equal; apply f_equal2;
       [ rewrite <- (add_0 p) at 2; apply f_equal | ]; lia).
  - rewrite add_add. replace (k + - k) with 0 by lia. symmetry. apply add_0.
  - apply Hm.
  - subst k. unfold clipped. destruct (Z.ltb_spec 0 n); lia.
  - subst k. unfold clipped. destruct (Z.ltb_spec 0 n); lia.
Qed.

Lemma signed_diff_narrow (w x : Z) :
  0 < w ->
  - 2 ^ (w - 1) <= x < 2 ^ (w - 1) ->
  @diff_narrow (signed_diff w) x = x.
Proof.
  intros Hw Hfit. cbn [diff_narrow signed_diff].
  assert (Hpow : 2 ^ w = 2 * 2 ^ (w - 1)).
  { replace w with (Z.succ (w - 1)) at 1 by lia. apply Z.pow_succ_r. lia. }
  rewrite Z.mod_small by lia. lia.
Qed.

(** The steps of [advance_bounded_steps] with a signed [Diff] of any
    width: inside the contract, a count that [Diff] holds leaves a
    remainder that [Diff] holds, so nothing wraps. *)
Lemma advance_bounded_steps_signed (w : Z) (tag : iterator_category) (p : I) (n d : Z) :
  0 < w ->
  - 2 ^ (w - 1) <= n < 2 ^ (w - 1) ->
  moves_in_direction tag n = true ->
  in_direction n d = true ->
  advance_bounded (D := signed_diff w) tag p n (cur_add p d)
  = Ok (cur_add p (clipped n d), n - clipped n d).
Proof.
  intros Hw Hn Hm Hd. apply in_direction_cases in Hd as [Hf Hb].
  rewrite advance_bounded_exact; [apply advance_bounded_steps; assumption|].
  intros _. rewrite sub_add_l, sub_add_r, Z.opp_involutive.
  cbn zeta. split; [reflexivity|]. split; [reflexivity|].
  intros Hnear. apply signed_diff_narrow; [exact Hw|].
  destruct (Z.ltb_spec 0 n).
  - apply Z.ltb_lt in Hnear. lia.
  - apply Z.ltb_lt in Hnear. lia.
Qed.

(** X6: off the precondition the overloads part ways.  With a positive
    count and a bound strictly behind the position, the stepping overload
    never meets the bound and takes the whole count forward; the
    random-access overload, in a call whose conversions change no value,
    goes back onto the bound and returns more than the count. *)
Theorem advance_bounded_bound_behind_tiers_differ
    (D : DiffType) (p : I) (n d : Z) :
  0 < n ->
  d < 0 ->
  conversions_exact D n d ->
  advance_bounded (D := D) input_iterator_tag p n (cur_add p d)
    = Ok (cur_add p n, 0)
  /\ advance_bounded (D := D) random_access_iterator_tag p n (cur_add p d)
     = Ok (cur_add p d, n - d)
  /\ n < n - d
  /\ cur_sub (cur_add p n) (cur_add p d) = n - d.
Proof.
  intros Hn Hd (Hcr & Hcn & Hnarrow). unfold advance_bounded.
  destruct (Z.ltb_spec 0 n); [|lia]. repeat apply conj.
  - unfold fwd, fwd_input. rewrite fwd_input_loop_bound_behind by lia. reflexivity.
  - unfold fwd, fwd_random_access. rewrite sub_add_l, Hcr, Hcn, Hnarrow.
    destruct (Z.ltb_spec d n); [reflexivity|lia].
  - lia.
  - rewrite sub_add, sub_add_r. lia.
Qed.
End AdvanceBoundedMore.


Lemma advance_bounded_splits_witness :
  bind (advance_bounded input_iterator_tag (0 : Z) 2 (cur_add (0 : Z) 3))
       (fun s1 =>
          bind (advance_bounded input_iterator_tag (fst s1) 4 (cur_add (0 : Z) 3))
               (fun s2 => Ok (fst s2, snd s1 + snd s2)))
  = advance_bounded input_iterator_tag (0 : Z) (2 + 4) (cur_add (0 : Z) 3).
Proof.
  apply (advance_bounded_splits input_iterator_tag (0 : Z) 2 4 3); reflexivity.
Defined.

Lemma advance_bounded_there_and_back_witness :
  bind (advance_bounded random_access_iterator_tag (1 : Z) 5 (cur_add (1 : Z) 3))
       (fun s => advance_bounded random_access_iterator_tag (fst s) (- (5 - snd s)) 1)
  = Ok (1, 0).
Proof.
  apply (advance_bounded_there_and_back random_access_iterator_tag (1 : Z) 5 3);
    reflexivity.
Defined.

Lemma advance_bounded_bound_behind_tiers_differ_witness :
  advance_bounded (D := signed_diff 32) input_iterator_tag (5 : Z) 2 (cur_add (5 : Z) (-3))
    = Ok (cur_add (5 : Z) 2, 0)
  /\ advance_bounded (D := signed_diff 32) random_access_iterator_tag
       (5 : Z) 2 (cur_add (5 : Z) (-3))
     = Ok (cur_add (5 : Z) (-3), 2 - -3)
  /\ 2 < 2 - -3
  /\ cur_sub (cur_add (5 : Z) 2) (cur_add (5 : Z) (-3)) = 2 - -3.
Proof.
  apply (advance_bounded_bound_behind_tiers_differ (signed_diff 32) (5 : Z) 2 (-3));
    [reflexivity | reflexivity | repeat split].
Defined.

(** ** The zip iterator on sequences *)

Section ListFacts.
Context {A B : Type}.

Lemma existsb_combine_swap (f g : A * A -> bool) :
  (forall a b : A, f (a, b) = g (b, a)) ->
  forall l1 l2 : list A,
    existsb f (combine l1 l2) = existsb g (combine l2 l1).
Proof.
  intros Hfg. induction l1 as [|a l1 IH]; intros [|b l2]; simpl; try reflexivity.
  rewrite Hfg, IH. reflexivity.
Qed.

Lemma map_combine_swap (f g : A * A -> B) :
  (forall a b : A, f (a, b) = g (b, a)) ->
  forall l1 l2 : list A,
    map f (combine l1 l2) = map g (combine l2 l1).
Proof.
  intros Hfg. induction l1 as [|a l1 IH]; intros [|b l2]; simpl; try reflexivity.
  rewrite Hfg, IH. reflexivity.
Qed.

Lemma combine_map_map {C : Type} (f g : C -> A) (l : list C) :
  combine (map f l) (map g l) = map (fun c => (f c, g c)) l.
Proof. induction l as [|c l IH]; simpl; [reflexivity|]. rewrite IH. reflexivity. Qed.
End ListFacts.

Lemma fold_left_min_seed_or_member (ds : list Z) :
  forall a : Z, fold_left Z.min ds a = a \/ In (fold_left Z.min ds a) ds.
Proof.
  induction ds as [|d ds IH]; intros a; simpl; [left; reflexivity|].
  destruct (IH (Z.min a d)) as [Heq|Hin]; [|right; right; exact Hin].
  rewrite Heq. destruct (Z.min_spec a d) as [[_ ->]|[_ ->]]; auto.
Qed.

Lemma fold_left_max_seed_or_member (ds : list Z) :
  forall a : Z, fold_left Z.max ds a = a \/ In (fold_left Z.max ds a) ds.
Proof.
  induction ds as [|d ds IH]; intros a; simpl; [left; reflexivity|].
  destruct (IH (Z.max a d)) as [Heq|Hin]; [|right; right; exact Hin].
  rewrite Heq. destruct (Z.max_spec a d) as [[_ ->]|[_ ->]]; auto.
Qed.

Lemma fold_left_max_opp (ds : list Z) :
  forall a : Z, fold_left Z.max (map Z.opp ds) (- a) = - fold_left Z.min ds a.
Proof.
  induction ds as [|d ds IH]; intros a; simpl; [reflexivity|].
  rewrite <- IH. f_equal. lia.
Qed.

Lemma fold_left_min_opp (ds : list Z) :
  forall a : Z, fold_left Z.min (map Z.opp ds) (- a) = - fold_left Z.max ds a.
Proof.
  induction ds as [|d ds IH]; intros a; simpl; [reflexivity|].
  rewrite <- IH. f_equal. lia.
Qed.

Lemma fold_left_min_constant (n : Z) (ds : list Z) :
  Forall (fun d => d = n) ds -> fold_left Z.min ds n = n.
Proof.
  induction 1 as [|d ds Hd _ IH]; simpl; [reflexivity|].
  subst d. rewrite Z.min_id. exact IH.
Qed.

Lemma fold_left_max_constant (n : Z) (ds : list Z) :
  Forall (fun d => d = n) ds -> fold_left Z.max ds n = n.
Proof.
  induction 1 as [|d ds Hd _ IH]; simpl; [reflexivity|].
  subst d. rewrite Z.max_id. exact IH.
Qed.

Section ZipOnSequences.
Context {R I : Type} `{CursorLaws I} {Rg : Range R I} {lim : numeric_limits}.

Lemma eqb_refl (a : I) : cur_eqb a a = true.
Proof. rewrite eqb_sub, sub_diag. reflexivity. Qed.

Lemma eqb_sym (a b : I) : cur_eqb a b = cur_eqb b a.
Proof.
  rewrite !eqb_sub, (sub_anti a b).
  destruct (Z.eqb_spec (- cur_sub b a) 0); destruct (Z.eqb_spec (cur_sub b a) 0);
    reflexivity || lia.
Qed.

Lemma dec_inc (a : I) : cur_dec (cur_inc a) = a.
Proof. rewrite inc_add, dec_add, add_add. apply add_0. Qed.

Lemma inc_dec (a : I) : cur_inc (cur_dec a) = a.
Proof. rewrite inc_add, dec_add, add_add. apply add_0. Qed.

Lemma component_distances_swap (this that : basic_iterator R I) :
  component_distances that this = map Z.opp (component_distances this that).
Proof.
  unfold component_distances. rewrite map_map.
  apply map_combine_swap. intros a b. simpl. apply sub_anti.
Qed.

(** X7: zip equality is symmetric, and reflexive on positions with at
    least one component; positions without components are never equal. *)
Theorem zip_equal_reflexive_symmetric (this that : basic_iterator R I) :
  equal this that = equal that this
  /\ (its_ this <> [] -> equal this this = true)
  /\ (its_ this = [] -> equal this that = false).
Proof.
  split; [|split].
  - rewrite !equal_existsb. apply existsb_combine_swap.
    intros a b. simpl. apply eqb_sym.
  - intros Hne. rewrite equal_existsb.
    destruct (its_ this) as [|t ts]; [contradiction|].
    simpl. unfold detail.equal_to. rewrite eqb_refl. reflexivity.
  - intros Hnil. rewrite equal_existsb, Hnil. reflexivity.
Qed.

(** X8: zip equality is not transitive: for any position [p] of a
    sequence, (p, p) equals (p, p+1), which equals (p+1, p+1), which is
    not equal to (p, p). *)
Theorem zip_equal_not_transitive (rng : zip_range_view R) (p : I) :
  let a := mk_basic_iterator rng [p; p] in
  let b := mk_basic_iterator rng [p; cur_inc p] in
  let c := mk_basic_iterator rng [cur_inc p; cur_inc p] in
  equal a b = true /\ equal b c = true /\ equal a c = false.
Proof.
  intros a b c. rewrite !equal_existsb. subst a b c. simpl.
  unfold detail.equal_to. rewrite !eqb_refl, inc_add, eqb_add_r. simpl.
  repeat split.
Qed.

(** X9: increment and decrement undo each other: when [++] from [this]
    gives [next], and [next] is not equal to the begin of the view, [--]
    from [next] gives [this] back; and the same with the two exchanged,
    not equal to the end. *)
Theorem zip_increment_decrement_round_trip (this other : basic_iterator R I) :
  (increment this = Ok other ->
   equal other (zip_begin (rng_ other)) = false ->
   decrement other = Ok this)
  /\ (decrement this = Ok other ->
      equal other (zip_end (rng_ other)) = false ->
      increment other = Ok this).
Proof.
  destruct this as [rng its]. split.
  - unfold increment. cbn [rng_ its_].
    destruct (equal _ _); [discriminate|]. cbn. intros Hinc Hnb.
    injection Hinc as <-. unfold decrement. rewrite Hnb. cbn.
    unfold tuple_for_each. rewrite map_map. f_equal. f_equal.
    rewrite <- (map_id its) at 2. apply map_ext. intros t. apply dec_inc.
  - unfold decrement. cbn [rng_ its_].
    destruct (equal _ _); [discriminate|]. cbn. intros Hdec Hne.
    injection Hdec as <-. unfold increment. rewrite Hne. cbn.
    unfold tuple_for_each. rewrite map_map. f_equal. f_equal.
    rewrite <- (map_id its) at 2. apply map_ext. intros t. apply inc_dec.
Qed.

(** X10: [advance] composes: by [n] and then by [m] is by [n + m], by 0
    is no move, and [++] ([--]) off the end (the begin) is [advance] by 1
    (by -1). *)
Theorem zip_advance_composes (this : basic_iterator R I) (n m : Z) :
  advance (advance this n) m = advance this (n + m)
  /\ advance this 0 = this
  /\ (equal this (zip_end (rng_ this)) = false ->
      increment this = Ok (advance this 1))
  /\ (equal this (zip_begin (rng_ this)) = false ->
      decrement this = Ok (advance this (-1))).
Proof.
  destruct this as [rng its]. unfold advance, tuple_for_each, detail.advance.
  cbn [rng_ its_]. repeat apply conj.
  - rewrite map_map. f_equal. apply map_ext. intros t. apply add_add.
  - f_equal. rewrite <- (map_id its) at 2. apply map_ext. intros t. apply add_0.
  - intros Hne. unfold increment. cbn [rng_ its_]. rewrite Hne. cbn. f_equal. f_equal.
    apply map_ext. intros t. apply inc_add.
  - intros Hnb. unfold decrement. cbn [rng_ its_]. rewrite Hnb. cbn. f_equal. f_equal.
    apply map_ext. intros t. apply dec_add.
Qed.
End ZipOnSequences.

Section ZipDistanceOnSequences.
Context {R I : Type} `{CursorLaws I} {lim : numeric_limits}.

Lemma component_distances_advance (this : basic_iterator R I) (n : Z) :
  component_distances this (advance this n) = map (fun _ => n) (its_ this).
Proof.
  unfold component_distances, advance, tuple_for_each, detail.advance.
  cbn [its_]. induction (its_ this) as [|t ts IH]; simpl; [reflexivity|].
  rewrite sub_add_l, IH. reflexivity.
Qed.

(** X11: the distance from a position with at least one component to
    the same position advanced by [n] is [n], for [n] a value of the
    difference type. *)
Theorem zip_distance_to_advanced (this : basic_iterator R I) (n : Z) :
  its_ this <> [] ->
  limits_min <= n <= limits_max ->
  distance_to this (advance this n) = Some n.
Proof.
  intros Hne Hn. rewrite distance_to_folds, component_distances_advance.
  destruct (its_ this) as [|t ts]; [contradiction|]. cbn [map fold_left].
  assert (Hall : Forall (fun d => d = n) (map (fun _ : I => n) ts)).
  { apply Forall_forall. intros d Hd. apply in_map_iff in Hd as (_ & <- & _).
    reflexivity. }
  rewrite Z.min_r, Z.max_r by lia.
  rewrite fold_left_min_constant, fold_left_max_constant by exact Hall.
  destruct (0 <? n); reflexivity.
Qed.

(** X12: when the distance between the first components is not zero (and
    it and its negation are values of the difference type), the distance
    from [that] to [this] is the negation of the distance from [this] to
    [that]. *)
Theorem zip_distance_to_antisymmetric (this that : basic_iterator R I) :
  let d0 := hd 0 (component_distances this that) in
  d0 <> 0 ->
  limits_min <= d0 <= limits_max ->
  limits_min <= - d0 <= limits_max ->
  distance_to that this = option_map Z.opp (distance_to this that).
Proof.
  intros d0 Hnz Hr Hr'. subst d0.
  rewrite !distance_to_folds, component_distances_swap.
  destruct (component_distances this that) as [|d ds]; [reflexivity|].
  cbn [hd] in *. cbn [map fold_left].
  rewrite !Z.min_r, !Z.max_r by lia.
  rewrite fold_left_max_opp, fold_left_min_opp.
  destruct (Z.ltb_spec 0 d); destruct (Z.ltb_spec 0 (- d)); try lia; reflexivity.
Qed.

(** X13: for a signed difference type, a distance of zero is only
    returned between positions that compare equal. *)
Theorem zip_distance_zero_is_equal (this that : basic_iterator R I) :
  limits_min < 0 < limits_max ->
  distance_to this that = Some 0 ->
  equal this that = true.
Proof.
  intros Hlim. rewrite distance_to_folds.
  assert (Hin : In 0 (component_distances this that) -> equal this that = true).
  { intros Hin. rewrite equal_existsb. apply existsb_exists.
    unfold component_distances in Hin. apply in_map_iff in Hin as (q & Hq & Hqin).
    exists q. split; [exact Hqin|]. unfold detail.equal_to.
    apply eqb_true_sub. exact Hq. }
  destruct (component_distances this that) as [|d ds] eqn:Eds; [discriminate|].
  destruct (0 <? d).
  - intros Hz. injection Hz as Hz.
    destruct (fold_left_min_seed_or_member (d :: ds) limits_max) as [Hs|Hm].
    + cbn [fold_left] in Hs. lia.
    + cbn [fold_left] in Hm. rewrite Hz in Hm. apply Hin. exact Hm.
  - intros Hz. injection Hz as Hz.
    destruct (fold_left_max_seed_or_member (d :: ds) limits_min) as [Hs|Hm].
    + cbn [fold_left] in Hs. lia.
    + cbn [fold_left] in Hm. rewrite Hz in Hm. apply Hin. exact Hm.
Qed.

(** X14: equal positions need not be at distance zero, and the distance
    depends on the order of the zipped sequences: (p, p) is equal to
    (p, p+k) and to (p+k, p) for [k > 0], at distance [k] from the first
    and 0 from the second. *)
Theorem zip_distance_depends_on_order (rng : zip_range_view R) (p : I) (k : Z) :
  0 < k <= limits_max ->
  limits_min <= 0 ->
  let a := mk_basic_iterator rng [p; p] in
  let b := mk_basic_iterator rng [p; cur_add p k] in
  let b' := mk_basic_iterator rng [cur_add p k; p] in
  equal a b = true /\ distance_to a b = Some k
  /\ equal a b' = true /\ distance_to a b' = Some 0.
Proof.
  intros Hk Hmin a b b'. subst a b b'.
  rewrite !equal_existsb. unfold distance_to, tuple_foldl, tuple_transform2.
  cbn [its_ combine map fst snd existsb fold_left].
  unfold detail.equal_to, detail.distance_to.
  rewrite eqb_refl, sub_diag, sub_add_l. cbn [orb].
  rewrite eqb_add_r. rewrite !min__is_min, !max__is_max.
  destruct (Z.ltb_spec 0 0); [lia|]. destruct (Z.ltb_spec 0 k); [|lia].
  destruct (Z.eqb_spec k 0); [lia|]. cbn [orb].
  repeat split; f_equal; lia.
Qed.
End ZipDistanceOnSequences.

(** The witnesses are taken on the zip of [a,b,c] and [x,y,z,w,v]. *)

Lemma zip_equal_reflexive_symmetric_witness :
  equal (zip_begin abc_xyzwv) (zip_end abc_xyzwv)
    = equal (zip_end abc_xyzwv) (zip_begin abc_xyzwv)
  /\ equal (zip_begin abc_xyzwv) (zip_begin abc_xyzwv) = true.
Proof.
  destruct (zip_equal_reflexive_symmetric (zip_begin abc_xyzwv) (zip_end abc_xyzwv))
    as (Hsym & Hrefl & _).
  split; [exact Hsym|]. apply Hrefl. discriminate.
Defined.

Lemma zip_equal_not_transitive_witness :
  let p := ranges_begin ["a"; "b"; "c"]%char in
  equal (mk_basic_iterator abc_xyzwv [p; p])
        (mk_basic_iterator abc_xyzwv [p; cur_inc p]) = true
  /\ equal (mk_basic_iterator abc_xyzwv [p; cur_inc p])
           (mk_basic_iterator abc_xyzwv [cur_inc p; cur_inc p]) = true
  /\ equal (mk_basic_iterator abc_xyzwv [p; p])
           (mk_basic_iterator abc_xyzwv [cur_inc p; cur_inc p]) = false.
Proof.
  intros p. exact (zip_equal_not_transitive abc_xyzwv p).
Defined.

Lemma zip_increment_decrement_round_trip_witness :
  decrement (advance (zip_begin abc_xyzwv) 1) = Ok (zip_begin abc_xyzwv)
  /\ increment (zip_begin abc_xyzwv) = Ok (advance (zip_begin abc_xyzwv) 1).
Proof.
  split.
  - apply (proj1 (zip_increment_decrement_round_trip
                    (zip_begin abc_xyzwv) (advance (zip_begin abc_xyzwv) 1)));
      reflexivity.
  - apply (proj2 (zip_increment_decrement_round_trip
                    (advance (zip_begin abc_xyzwv) 1) (zip_begin abc_xyzwv)));
      reflexivity.
Defined.

Lemma zip_advance_composes_witness :
  advance (advance (zip_begin abc_xyzwv) 2) (-1) = advance (zip_begin abc_xyzwv) (2 + -1)
  /\ increment (zip_begin abc_xyzwv) = Ok (advance (zip_begin abc_xyzwv) 1).
Proof.
  destruct (zip_advance_composes (zip_begin abc_xyzwv) 2 (-1))
    as (Hadd & _ & Hinc & _).
  split; [exact Hadd|]. apply Hinc. reflexivity.
Defined.

Lemma zip_distance_to_advanced_witness :
  @distance_to (list ascii) _ _ ptrdiff_limits
     (zip_begin abc_xyzwv) (advance (zip_begin abc_xyzwv) 2) = Some 2.
Proof.
  apply (zip_distance_to_advanced (lim := ptrdiff_limits) (zip_begin abc_xyzwv) 2).
  - discriminate.
  - simpl. lia.
Defined.

Lemma zip_distance_to_antisymmetric_witness :
  @distance_to (list ascii) _ _ ptrdiff_limits (zip_end abc_xyzwv) (zip_begin abc_xyzwv)
  = option_map Z.opp
      (@distance_to (list ascii) _ _ ptrdiff_limits
         (zip_begin abc_xyzwv) (zip_end abc_xyzwv)).
Proof.
  apply (zip_distance_to_antisymmetric (lim := ptrdiff_limits)
           (zip_begin abc_xyzwv) (zip_end abc_xyzwv)); simpl; lia.
Defined.

Lemma zip_distance_zero_is_equal_witness :
  equal (advance (zip_begin abc_xyzwv) 1) (advance (zip_begin abc_xyzwv) 1) = true.
Proof.
  apply (zip_distance_zero_is_equal (lim := ptrdiff_limits)).
  - simpl. lia.
  - reflexivity.
Defined.

Lemma zip_distance_depends_on_order_witness :
  let p := ranges_begin ["a"; "b"; "c"]%char in
  equal (mk_basic_iterator abc_xyzwv [p; p])
        (mk_basic_iterator abc_xyzwv [p; cur_add p 2]) = true
  /\ @distance_to _ _ _ ptrdiff_limits
       (mk_basic_iterator abc_xyzwv [p; p])
       (mk_basic_iterator abc_xyzwv [p; cur_add p 2]) = Some 2
  /\ equal (mk_basic_iterator abc_xyzwv [p; p])
           (mk_basic_iterator abc_xyzwv [cur_add p 2; p]) = true
  /\ @distance_to _ _ _ ptrdiff_limits
       (mk_basic_iterator abc_xyzwv [p; p])
       (mk_basic_iterator abc_xyzwv [cur_add p 2; p]) = Some 0.
Proof.
  intros p.
  apply (zip_distance_depends_on_order (lim := ptrdiff_limits) abc_xyzwv p 2);
    simpl; lia.
Defined.

(** ** The whole view *)

Section ZipViewFacts.
Context {R I : Type} `{Cursor I} {Rg : Range R I}.

Lemma equal_begin_end (rng : zip_range_view R) :
  equal (zip_begin rng) (zip_end rng)
  = existsb (fun r => cur_eqb (ranges_begin r) (ranges_end r)) (rngs_ rng).
Proof.
  rewrite equal_existsb. unfold zip_begin, zip_end, tuple_transform. cbn [its_].
  rewrite combine_map_map. induction (rngs_ rng) as [|r rs IH]; simpl.
  - reflexivity.
  - rewrite IH. reflexivity.
Qed.

(** X15: [operator!] of the view is true exactly when one of the zipped
    ranges has its begin equal to its end; in particular a view of ranges
    that all have elements is not empty. *)
Theorem zip_empty_iff_some_range_empty (rng : zip_range_view R) :
  zip_empty rng = true
  <-> exists r : R, In r (rngs_ rng)
                    /\ cur_eqb (ranges_begin r) (ranges_end r) = true.
Proof.
  unfold zip_empty. rewrite equal_begin_end. apply existsb_exists.
Qed.
End ZipViewFacts.

(** ** Zips of lists *)

Lemma fold_left_min_le (xs : list nat) :
  forall a : nat,
    (fold_left Nat.min xs a <= a)%nat
    /\ Forall (fun x => (fold_left Nat.min xs a <= x)%nat) xs
    /\ (fold_left Nat.min xs a = a \/ In (fold_left Nat.min xs a) xs).
Proof.
  induction xs as [|x xs IH]; intros a; simpl.
  - repeat split; auto.
  - destruct (IH (Nat.min a x)) as (Hle & Hall & Hmem).
    split; [lia|]. split.
    + constructor; [lia|exact Hall].
    + destruct Hmem as [Heq|Hin]; [|right; right; exact Hin].
      rewrite Heq. destruct (Nat.min_spec a x) as [[_ ->]|[_ ->]]; auto.
Qed.

Lemma fold_left_min_of_nat (xs : list nat) :
  forall a : nat,
    fold_left Z.min (map Z.of_nat xs) (Z.of_nat a) = Z.of_nat (fold_left Nat.min xs a).
Proof.
  induction xs as [|x xs IH]; intros a; simpl; [reflexivity|].
  rewrite <- Nat2Z.inj_min. apply IH.
Qed.

Lemma fold_left_max_of_nat (xs : list nat) :
  forall a : nat,
    fold_left Z.max (map Z.of_nat xs) (Z.of_nat a) = Z.of_nat (fold_left Nat.max xs a).
Proof.
  induction xs as [|x xs IH]; intros a; simpl; [reflexivity|].
  rewrite <- Nat2Z.inj_max. apply IH.
Qed.

Section ZipOfLists.
Context {A : Type}.

Lemma shortest_length_le (ls : list (list A)) :
  Forall (fun l => (shortest_length ls <= length l)%nat) ls.
Proof.
  destruct ls as [|l ls]; [constructor|]. unfold shortest_length.
  destruct (fold_left_min_le (map (@length A) ls) (length l)) as (Hle & Hall & _).
  constructor; [exact Hle|].
  apply Forall_forall. intros l' Hl'.
  rewrite Forall_forall in Hall. apply Hall. apply in_map. exact Hl'.
Qed.

Lemma shortest_length_attained (ls : list (list A)) :
  ls <> [] -> exists l : list A, In l ls /\ length l = shortest_length ls.
Proof.
  destruct ls as [|l ls]; [contradiction|]. intros _. unfold shortest_length.
  destruct (fold_left_min_le (map (@length A) ls) (length l)) as (_ & _ & [Heq|Hin]).
  - exists l. split; [left; reflexivity|]. symmetry. exact Heq.
  - apply in_map_iff in Hin as (l' & Hlen & Hl').
    exists l'. split; [right; exact Hl'|exact Hlen].
Qed.

Lemma zip_begin_position_at (ls : list (list A)) :
  zip_begin (mk_zip_range_view ls) = position_at ls 0.
Proof. reflexivity. Qed.

Lemma advance_position_at (ls : list (list A)) (z n : Z) :
  advance (position_at ls z) n = position_at ls (z + n).
Proof.
  unfold advance, position_at, tuple_for_each. cbn [rng_ its_].
  rewrite map_map. reflexivity.
Qed.

Lemma equal_position_at_end (ls : list (list A)) (z : Z) :
  equal (position_at ls z) (zip_end (mk_zip_range_view ls))
  = existsb (fun l => z =? Z.of_nat (length l)) ls.
Proof.
  rewrite equal_existsb. unfold position_at, zip_end, tuple_transform.
  cbn [its_ rngs_]. rewrite combine_map_map.
  induction ls as [|l ls IH]; [reflexivity|].
  cbn [map existsb]. rewrite IH. reflexivity.
Qed.

Lemma increment_position_at (ls : list (list A)) (z : Z) :
  increment (position_at ls z)
  = if existsb (fun l => z =? Z.of_nat (length l)) ls
    then AssertionFailed
    else Ok (position_at ls (z + 1)).
Proof.
  unfold increment. cbn [rng_ position_at].
  change (mk_basic_iterator (mk_zip_range_view ls) (map (fun l => mk_vec_iter l z) ls))
    with (position_at ls z).
  rewrite equal_position_at_end.
  destruct (existsb _ ls); [reflexivity|]. cbn.
  unfold position_at, tuple_for_each. cbn [its_]. rewrite map_map. reflexivity.
Qed.

Lemma dereference_position_at (ls : list (list A)) (i : nat) :
  dereference (position_at ls (Z.of_nat i)) = zipped_row ls i.
Proof.
  unfold dereference, position_at, tuple_transform, zipped_row. cbn [its_].
  rewrite map_map. apply map_ext. intros l.
  unfold detail.deref, cur_deref, vec_deref. cbn [vi_pos vi_data].
  destruct (Z.ltb_spec (Z.of_nat i) 0); [lia|].
  rewrite Nat2Z.id. reflexivity.
Qed.

Lemma not_at_end_before_shortest (ls : list (list A)) (i : nat) :
  (i < shortest_length ls)%nat ->
  existsb (fun l => Z.of_nat i =? Z.of_nat (length l)) ls = false.
Proof.
  intros Hi. apply not_true_is_false. intros Hex.
  apply existsb_exists in Hex as (l & Hl & Heq). apply Z.eqb_eq in Heq.
  pose proof (shortest_length_le ls) as Hall. rewrite Forall_forall in Hall.
  specialize (Hall l Hl). lia.
Qed.

Lemma at_end_at_shortest (ls : list (list A)) :
  ls <> [] ->
  existsb (fun l => Z.of_nat (shortest_length ls) =? Z.of_nat (length l)) ls = true.
Proof.
  intros Hne. apply existsb_exists.
  destruct (shortest_length_attained ls Hne) as (l & Hl & Hlen).
  exists l. split; [exact Hl|]. apply Z.eqb_eq. lia.
Qed.

Lemma traverse_from_position_at (ls : list (list A)) (k : nat) :
  ls <> [] ->
  forall m i : nat,
    (i + m = shortest_length ls)%nat ->
    traverse_from (m + k) (position_at ls (Z.of_nat i))
    = Some (map (zipped_row ls) (seq i m), true).
Proof.
  intros Hne. induction m as [|m IH]; intros i Him.
  - rewrite Nat.add_0_r in Him. subst i. cbn [Nat.add seq map].
    destruct k as [|k]; cbn [traverse_from rng_ position_at].
    + change (mk_basic_iterator (mk_zip_range_view ls)
                (map (fun l => mk_vec_iter l (Z.of_nat (shortest_length ls))) ls))
        with (position_at ls (Z.of_nat (shortest_length ls))).
      rewrite equal_position_at_end, at_end_at_shortest by exact Hne. reflexivity.
    + change (mk_basic_iterator (mk_zip_range_view ls)
                (map (fun l => mk_vec_iter l (Z.of_nat (shortest_length ls))) ls))
        with (position_at ls (Z.of_nat (shortest_length ls))).
      rewrite equal_position_at_end, at_end_at_shortest by exact Hne. reflexivity.
  - cbn [Nat.add traverse_from rng_ position_at].
    change (mk_basic_iterator (mk_zip_range_view ls)
              (map (fun l => mk_vec_iter l (Z.of_nat i)) ls))
      with (position_at ls (Z.of_nat i)).
    rewrite equal_position_at_end, increment_position_at.
    rewrite not_at_end_before_shortest by lia.
    replace (Z.of_nat i + 1) with (Z.of_nat (S i)) by lia.
    rewrite IH by lia. rewrite dereference_position_at. reflexivity.
Qed.

(** X16: a traversal of the zip of one or more lists sees the rows of the
    lists side by side up to the length of the shortest list, in order,
    and then leaves by its own test, however many more turns it is
    allowed; no row dereferences a component outside of its list. *)
Theorem zip_traverse_lists (ls : list (list A)) (k : nat) :
  ls <> [] ->
  traverse (shortest_length ls + k) (mk_zip_range_view ls)
    = Some (zipped_rows ls, true)
  /\ length (zipped_rows ls) = shortest_length ls
  /\ Forall (Forall (fun x : option A => x <> None)) (zipped_rows ls).
Proof.
  intros Hne. split; [|split].
  - unfold traverse. rewrite zip_begin_position_at.
    apply (traverse_from_position_at ls k Hne (shortest_length ls) O).
    reflexivity.
  - unfold zipped_rows. rewrite length_map, length_seq. reflexivity.
  - unfold zipped_rows. apply Forall_forall. intros row Hrow.
    apply in_map_iff in Hrow as (i & <- & Hi). apply in_seq in Hi.
    unfold zipped_row. apply Forall_forall. intros x Hx.
    apply in_map_iff in Hx as (l & <- & Hl).
    apply nth_error_Some.
    pose proof (shortest_length_le ls) as Hall. rewrite Forall_forall in Hall.
    specialize (Hall l Hl). lia.
Qed.

(** X17: [advance] is not bounded by the view: the begin advanced by [n]
    compares equal to the end exactly when [n] is the length of one of
    the lists, so a position advanced past the shortest list is unequal to
    the end again unless it meets the length of another list. *)
Theorem zip_advanced_begin_equals_end (ls : list (list A)) (n : Z) :
  equal (advance (zip_begin (mk_zip_range_view ls)) n)
        (zip_end (mk_zip_range_view ls)) = true
  <-> exists l : list A, In l ls /\ Z.of_nat (length l) = n.
Proof.
  rewrite zip_begin_position_at, advance_position_at, equal_position_at_end.
  rewrite existsb_exists. split.
  - intros (l & Hl & Heq). apply Z.eqb_eq in Heq. exists l. split; [exact Hl|lia].
  - intros (l & Hl & Heq). exists l. split; [exact Hl|]. apply Z.eqb_eq. lia.
Qed.
End ZipOfLists.

Lemma zip_traverse_lists_witness :
  traverse (shortest_length [[1; 2]; [3; 4; 5]; [6; 7]] + 1)
           (mk_zip_range_view [[1; 2]; [3; 4; 5]; [6; 7]])
    = Some (zipped_rows [[1; 2]; [3; 4; 5]; [6; 7]], true)
  /\ length (zipped_rows [[1; 2]; [3; 4; 5]; [6; 7]])
     = shortest_length [[1; 2]; [3; 4; 5]; [6; 7]]
  /\ Forall (Forall (fun x : option Z => x <> None))
            (zipped_rows [[1; 2]; [3; 4; 5]; [6; 7]]).
Proof.
  apply (zip_traverse_lists [[1; 2]; [3; 4; 5]; [6; 7]] 1). discriminate.
Defined.

Section ZipOfListsDistance.
Context {A : Type} {lim : numeric_limits}.

Lemma component_distances_begin_end (ls : list (list A)) :
  component_distances (zip_begin (mk_zip_range_view ls)) (zip_end (mk_zip_range_view ls))
  = map Z.of_nat (map (@length A) ls).
Proof.
  unfold component_distances, zip_begin, zip_end, tuple_transform.
  cbn [its_ rngs_]. rewrite combine_map_map, !map_map.
  apply map_ext. intros l. cbn. lia.
Qed.

Lemma component_distances_end_begin (ls : list (list A)) :
  component_distances (zip_end (mk_zip_range_view ls)) (zip_begin (mk_zip_range_view ls))
  = map Z.opp (map Z.of_nat (map (@length A) ls)).
Proof.
  unfold component_distances, zip_begin, zip_end, tuple_transform.
  cbn [its_ rngs_]. rewrite combine_map_map, !map_map.
  apply map_ext. intros l. cbn. lia.
Qed.

(** X18: on a zip of lists whose first list [l0] has a length that fits
    the difference type, the distance from the end back to the begin is
    minus the length of the shortest list; the distance from the begin to
    the end is the length of the shortest list when [l0] has elements,
    and the length of the longest list when [l0] is empty. *)
Theorem zip_distance_begin_end_lists (l0 : list A) (ls : list (list A)) :
  limits_min <= - Z.of_nat (length l0) ->
  Z.of_nat (length l0) <= limits_max ->
  let v := mk_zip_range_view (l0 :: ls) in
  distance_to (zip_end v) (zip_begin v)
    = Some (- Z.of_nat (shortest_length (l0 :: ls)))
  /\ distance_to (zip_begin v) (zip_end v)
     = Some (Z.of_nat (if (0 <? length l0)%nat
                       then shortest_length (l0 :: ls)
                       else longest_length (l0 :: ls))).
Proof.
  intros Hmin Hmax v. subst v. split.
  - rewrite distance_to_folds, component_distances_end_begin.
    cbn [map fold_left].
    destruct (Z.ltb_spec 0 (- Z.of_nat (length l0))); [lia|].
    rewrite Z.max_r by lia.
    rewrite fold_left_max_opp, fold_left_min_of_nat. reflexivity.
  - rewrite distance_to_folds, component_distances_begin_end.
    cbn [map fold_left].
    destruct (Nat.ltb_spec 0 (length l0)).
    + destruct (Z.ltb_spec 0 (Z.of_nat (length l0))); [|lia].
      rewrite Z.min_r by lia. rewrite fold_left_min_of_nat. reflexivity.
    + destruct (Z.ltb_spec 0 (Z.of_nat (length l0))); [lia|].
      rewrite Z.max_r by lia. rewrite fold_left_max_of_nat. reflexivity.
Qed.
End ZipOfListsDistance.

Lemma zip_distance_begin_end_lists_witness :
  let v := mk_zip_range_view [[1; 2; 3]; [4; 5; 6; 7]] in
  @distance_to _ _ _ ptrdiff_limits (zip_end v) (zip_begin v)
    = Some (- Z.of_nat (shortest_length [[1; 2; 3]; [4; 5; 6; 7]]))
  /\ @distance_to _ _ _ ptrdiff_limits (zip_begin v) (zip_end v)
     = Some (Z.of_nat (if (0 <? length [1; 2; 3])%nat
                       then shortest_length [[1; 2; 3]; [4; 5; 6; 7]]
                       else longest_length [[1; 2; 3]; [4; 5; 6; 7]])).
Proof.
  apply (zip_distance_begin_end_lists (lim := ptrdiff_limits) [1; 2; 3] [[4; 5; 6; 7]]);
    simpl; lia.
Defined.

(** ** The category of nested and reordered zips *)

Lemma tier_injective (a b : iterator_category) : tier a = tier b -> a = b.
Proof. destruct a, b; simpl; intros Heq; reflexivity || discriminate Heq. Qed.

Lemma zip_iterator_category_characterized
    (cats : list iterator_category) (m : iterator_category) :
  zip_iterator_category cats = Some m
  <-> In m cats /\ Forall (fun c => (tier m <= tier c)%nat) cats.
Proof.
  destruct cats as [|t ts].
  - simpl. split; [discriminate|]. intros [[] _].
  - unfold zip_iterator_category, common_type. rewrite common_type_from_min.
    pose proof (minimum_tier_member ts t) as Hmem.
    pose proof (minimum_tier_lower_bound ts t) as Hlow.
    split.
    + intros Heq. injection Heq as <-. split; assumption.
    + intros [Hin Hall]. f_equal. apply tier_injective.
      rewrite Forall_forall in Hlow, Hall.
      pose proof (Hlow m Hin). pose proof (Hall _ Hmem). lia.
Qed.

Lemma zip_iterator_category_defined (cats : list iterator_category) :
  cats <> [] -> exists m, zip_iterator_category cats = Some m.
Proof.
  destruct cats as [|t ts]; [contradiction|]. intros _.
  exists (minimum_tier t ts). apply common_type_from_min.
Qed.

(** X19: the category of a zip does not depend on the order of the
    ranges, and a zip that has another zip among its ranges has the
    category of the zip of all the ranges. *)
Theorem zip_category_order_and_nesting :
  (forall ts us : list iterator_category,
      zip_iterator_category (ts ++ us) = zip_iterator_category (us ++ ts))
  /\ (forall (t : iterator_category) (ts us : list iterator_category),
        zip_iterator_category ((t :: ts) ++ us)
        = match zip_iterator_category (t :: ts) with
          | Some c => zip_iterator_category (c :: us)
          | None => None
          end).
Proof.
  split.
  - intros ts us.
    destruct (ts ++ us) as [|c cs] eqn:Eapp.
    + apply app_eq_nil in Eapp as [-> ->]. reflexivity.
    + assert (Hne : us ++ ts <> []).
      { intros Hnil. apply app_eq_nil in Hnil as [-> ->]. discriminate Eapp. }
      destruct (zip_iterator_category_defined (us ++ ts) Hne) as [m Hm].
      rewrite Hm. rewrite <- Eapp.
      apply zip_iterator_category_characterized in Hm as [Hin Hall].
      apply zip_iterator_category_characterized. split.
      * apply in_app_iff. apply in_app_iff in Hin. tauto.
      * apply Forall_app. apply Forall_app in Hall. tauto.
  - intros t ts us.
    destruct (zip_iterator_category_defined (t :: ts)) as [c Hc]; [discriminate|].
    rewrite Hc.
    destruct (zip_iterator_category_defined (c :: us)) as [m Hm]; [discriminate|].
    rewrite Hm.
    apply zip_iterator_category_characterized in Hc as [Hcin Hcall].
    apply zip_iterator_category_characterized in Hm as [Hmin Hmall].
    apply zip_iterator_category_characterized.
    inversion Hmall as [|? ? Hmc Hmus]; subst. split.
    + apply in_app_iff. destruct Hmin as [<-|Hmin]; [left; exact Hcin|right; exact Hmin].
    + apply Forall_app. split; [|exact Hmus].
      eapply Forall_impl; [|exact Hcall]. simpl. intros x Hx. lia.
Qed.

(** ** A backward request with the bound ahead *)

Section BackwardBoundAhead.
Context {I : Type} `{Cursor I}.

(** X20: with a count that is not positive and a bound strictly ahead of
    a random-access position, in a call whose conversions change no
    value, the position is set to the bound, forward, and the count comes
    back smaller (further from zero) than it went in. *)
Theorem advance_bounded_backward_bound_ahead
    (D : DiffType) (p bound : I) (n : Z) :
  n <= 0 ->
  cur_sub p bound < 0 ->
  conversions_exact D n (- cur_sub p bound) ->
  advance_bounded (D := D) random_access_iterator_tag p n bound
    = Ok (bound, n + cur_sub p bound)
  /\ n + cur_sub p bound < n.
Proof.
  intros Hn Hroom (Hcr & Hcn & Hnarrow).
  unfold advance_bounded, back, back_random_access.
  destruct (Z.ltb_spec 0 n); [lia|].
  rewrite Hcr, Hcn, Hnarrow.
  destruct (Z.ltb_spec n (- cur_sub p bound)); [|lia].
  split; [|lia]. f_equal. f_equal. lia.
Qed.
End BackwardBoundAhead.

Lemma advance_bounded_backward_bound_ahead_witness :
  advance_bounded (D := signed_diff 32) random_access_iterator_tag (2 : Z) (-1) 5
    = Ok (5, -1 + cur_sub (2 : Z) 5)
  /\ -1 + cur_sub (2 : Z) 5 < -1.
Proof.
  apply (advance_bounded_backward_bound_ahead (signed_diff 32) (2 : Z) 5 (-1));
    [discriminate | reflexivity | repeat split].
Defined.

(** Where the conversions do change a value: a 32-bit signed [Diff] with
    the count -2^31 and the bound one step ahead stores 2^31 - 1; an
    unsigned 64-bit [Diff] with the count 0 and the bound three steps
    ahead stores 2^64 - 3. *)
Lemma backward_bound_ahead_wraps :
  advance_bounded (D := signed_diff 32) random_access_iterator_tag
    (0 : Z) (-2147483648) 1 = Ok (1, 2147483647)
  /\ advance_bounded (D := unsigned_diff 64) random_access_iterator_tag
       (2 : Z) 0 5 = Ok (5, 18446744073709551613).
Proof. split; vm_compute; reflexivity. Qed.
